(** * br-cid10-csv: the chunked table reader of [src/index.ts]

    A shallow embedding of [cidTableStream], of the record classes it
    instantiates, and of the JavaScript string primitives they rely on. *)

From Stdlib Require Import String.
From Stdlib Require Import List Ascii ZArith Lia Bool Arith.
From Equations Require Import Equations.
Import ListNotations.

(** ** JavaScript string primitives

    The stream is decoded as [latin1], so every character is one byte and a
    JavaScript string is a list of [ascii] code units. *)

Module Js.

Definition str := list ascii.

Definition lit (s : String.string) : str := String.list_ascii_of_string s.
Arguments lit s%_string.

(** [s.startsWith(sep)], with the pattern first. *)
Fixpoint startsWith (sep s : str) : bool :=
  match sep, s with
  | [], _ => true
  | _ :: _, [] => false
  | a :: sep', b :: s' => Ascii.eqb a b && startsWith sep' s'
  end.

(** [s.includes(sep)]. *)
Fixpoint includes (s sep : str) : bool :=
  startsWith sep s ||
  match s with
  | [] => false
  | _ :: s' => includes s' sep
  end.

(** Position of the last occurrence of [sep] in [s], if any. *)
Fixpoint lastOccurrence (s sep : str) : option nat :=
  match s with
  | [] => if startsWith sep [] then Some 0 else None
  | _ :: s' =>
      match lastOccurrence s' sep with
      | Some i => Some (S i)
      | None => if startsWith sep s then Some 0 else None
      end
  end.

(** [s.lastIndexOf(sep)]: the position of the last occurrence, or [-1]. *)
Definition lastIndexOf (s sep : str) : Z :=
  match lastOccurrence s sep with
  | Some i => Z.of_nat i
  | None => (-1)%Z
  end.

(** Relative-index resolution shared by [slice]'s two arguments: a negative
    index counts from the end, and the result is clamped to [0 .. len]. *)
Definition relIndex (len k : Z) : Z :=
  if (k <? 0)%Z then Z.max (len + k) 0 else Z.min k len.

(** [s.slice(start, stop)]; [stop = None] is the one-argument form. *)
Definition slice (s : str) (start : Z) (stop : option Z) : str :=
  let len := Z.of_nat (length s) in
  let from := relIndex len start in
  let to := match stop with Some e => relIndex len e | None => len end in
  firstn (Z.to_nat (to - from)) (skipn (Z.to_nat from) s).

(** Puts one more character in front of the first piece of a split. *)
Definition consHead (c : ascii) (pieces : list str) : list str :=
  match pieces with
  | [] => [[c]]
  | p :: ps => (c :: p) :: ps
  end.

(** [s.split(sep)]: the pieces between the occurrences of [sep], found left
    to right without overlap; with the empty separator, the code units. *)
Equations? split (s sep : str) : list str by wf (length s) lt :=
  split s [] := map (fun c => [c]) s;
  split [] (_ :: _) := [[]];
  split (c :: s') (a :: sep') with startsWith (a :: sep') (c :: s') => {
    | true := [] :: split (skipn (length sep') s') (a :: sep');
    | false := consHead c (split s' (a :: sep')) }.
Proof.
  rewrite length_skipn. lia.
Qed.

End Js.

Import Js.

(** The two separators of the table format. *)
Definition CR : ascii := "013"%char.
Definition LF : ascii := "010"%char.
Definition semicolon : str := [";"%char].
Definition LINEBRK : str := [";"%char; CR; LF].

(** An occurrence of [sep] somewhere in [s], stated without the code. *)
Definition occursIn (sep s : str) : Prop := exists a b, s = a ++ sep ++ b.

(** ** The record classes *)

(** [CidRecord]: its only field, [$columns], holds the fields of the row. *)
Record CidRecord : Type := mkCidRecord { columns : list str }.

(** [new CidRecord(row)]. *)
Definition newCidRecord (row : str) : CidRecord :=
  mkCidRecord (split row semicolon).

(** What reading a getter gives: a value, or the [TypeError] raised by a
    method call on [undefined]. *)
Inductive getter (A : Type) : Type :=
| value (v : A)
| TypeError.
Arguments value {A} v.
Arguments TypeError {A}.

Fixpoint takeWhile (p : ascii -> bool) (s : str) : str :=
  match s with
  | c :: s' => if p c then c :: takeWhile p s' else []
  | [] => []
  end.

Fixpoint dropWhile (p : ascii -> bool) (s : str) : str :=
  match s with
  | c :: s' => if p c then dropWhile p s' else s
  | [] => []
  end.

Module Cid10Chapter.

Definition NUMBER : nat := 0.
Definition CAT_FIRST : nat := 1.
Definition CAT_LAST : nat := 2.
Definition DESCRIPTION : nat := 3.
Definition ABBREVIATION : nat := 4.

(** The subclass inherits the constructor. *)
Definition new (row : str) : CidRecord := newCidRecord row.

(** The character class [[IVXLCDM]]. *)
Definition isRoman (c : ascii) : bool := existsb (Ascii.eqb c) (lit "IVXLCDM").

(** The class [\s], on the code units latin1 can produce. *)
Definition isSpace (c : ascii) : bool :=
  existsb (Ascii.eqb c)
    ["009"; "010"; "011"; "012"; "013"; " "; "160"]%char.

(** [/^([IVXLCDM]+)\.\s*/]: the numeral captured and what follows the match.
    The numeral run is maximal: a shorter one is followed by a numeral
    character, never by the dot. *)
Definition romanPrefix (s : str) : option (str * str) :=
  match takeWhile isRoman s, dropWhile isRoman s with
  | (_ :: _) as numeral, "."%char :: rest => Some (numeral, dropWhile isSpace rest)
  | _, _ => None
  end.

(** [get roman()]: [this.$columns[ABBREVIATION].match(...)?.[1]]. *)
Definition roman (r : CidRecord) : getter (option str) :=
  match nth_error (columns r) ABBREVIATION with
  | None => TypeError
  | Some v => value (option_map fst (romanPrefix v))
  end.

(** [get abbreviation()]: [this.$columns[ABBREVIATION].replace(..., '')]. *)
Definition abbreviation (r : CidRecord) : getter str :=
  match nth_error (columns r) ABBREVIATION with
  | None => TypeError
  | Some v =>
      value (match romanPrefix v with
             | Some (_, rest) => rest
             | None => v
             end)
  end.

(** [get catFirst()], [get catLast()]: the column as it is, [undefined]
    when the row is too short. *)
Definition catFirst (r : CidRecord) : option str :=
  nth_error (columns r) CAT_FIRST.

Definition catLast (r : CidRecord) : option str :=
  nth_error (columns r) CAT_LAST.

(** The literal [Capítulo]; its [í] is the latin1 code unit 237. *)
Definition capitulo : str := lit "Cap" ++ ["237"%char] ++ lit "tulo".

(** [/^Capítulo\s+[IVXLCDM]+\s*-\s*/]: what follows the match.  Adjacent
    parts of the pattern have disjoint character classes, so every run is
    maximal. *)
Definition chapterPrefix (s : str) : option str :=
  if startsWith capitulo s then
    let s1 := skipn (length capitulo) s in
    match takeWhile isSpace s1, takeWhile isRoman (dropWhile isSpace s1) with
    | _ :: _, _ :: _ =>
        match dropWhile isSpace (dropWhile isRoman (dropWhile isSpace s1)) with
        | "-"%char :: rest => Some (dropWhile isSpace rest)
        | _ => None
        end
    | _, _ => None
    end
  else None.

(** [get description()]: [this.$columns[DESCRIPTION].replace(..., '')]. *)
Definition description (r : CidRecord) : getter str :=
  match nth_error (columns r) DESCRIPTION with
  | None => TypeError
  | Some v =>
      value (match chapterPrefix v with
             | Some rest => rest
             | None => v
             end)
  end.

End Cid10Chapter.

(** [x || undefined] on a column: a missing column and the empty string both
    read as [undefined]. *)
Definition orUndefined (x : option str) : option str :=
  match x with
  | Some [] => None
  | _ => x
  end.

(** The classes [[A-Z]] and [\d]. *)
Definition isUpper (c : ascii) : bool :=
  (65 <=? nat_of_ascii c) && (nat_of_ascii c <=? 90).

Definition isDigit (c : ascii) : bool :=
  (48 <=? nat_of_ascii c) && (nat_of_ascii c <=? 57).

Definition comma : str := [","%char].

Module Cid10Group.

Definition CAT_FIRST : nat := 0.
Definition CAT_LAST : nat := 1.
Definition DESCRIPTION : nat := 2.
Definition ABBREVIATION : nat := 3.

Definition new (row : str) : CidRecord := newCidRecord row.

Definition catFirst (r : CidRecord) : option str :=
  nth_error (columns r) CAT_FIRST.
Definition catLast (r : CidRecord) : option str :=
  nth_error (columns r) CAT_LAST.
Definition description (r : CidRecord) : option str :=
  nth_error (columns r) DESCRIPTION.
Definition abbreviation (r : CidRecord) : option str :=
  nth_error (columns r) ABBREVIATION.

End Cid10Group.

Module Cid10Category.

Definition CODE : nat := 0.
Definition CLASSIF : nat := 1.
Definition DESCRIPTION : nat := 2.
Definition ABBREVIATION : nat := 3.
Definition REFER : nat := 4.
Definition EXCLUDED : nat := 5.

Definition new (row : str) : CidRecord := newCidRecord row.

Definition code (r : CidRecord) : option str := nth_error (columns r) CODE.

Definition classif (r : CidRecord) : option str :=
  orUndefined (nth_error (columns r) CLASSIF).

Definition description (r : CidRecord) : option str :=
  nth_error (columns r) DESCRIPTION.

(** [/^[A-Z]\d+\s+/]: what follows the match. *)
Definition codePrefix (s : str) : option str :=
  match s with
  | c :: s1 =>
      if isUpper c then
        match takeWhile isDigit s1,
              takeWhile Cid10Chapter.isSpace (dropWhile isDigit s1) with
        | _ :: _, _ :: _ =>
            Some (dropWhile Cid10Chapter.isSpace (dropWhile isDigit s1))
        | _, _ => None
        end
      else None
  | [] => None
  end.

(** [get abbreviation()]: [this.$columns[ABBREVIATION].replace(..., '')]. *)
Definition abbreviation (r : CidRecord) : getter str :=
  match nth_error (columns r) ABBREVIATION with
  | None => TypeError
  | Some v =>
      value (match codePrefix v with
             | Some rest => rest
             | None => v
             end)
  end.

Definition refer (r : CidRecord) : option str :=
  orUndefined (nth_error (columns r) REFER).

(** [get excluded()]:
    [(this.$columns[EXCLUDED] || undefined)?.split(',') || []]; the array
    [split] returns is truthy, so [[]] stands for [undefined] only. *)
Definition excluded (r : CidRecord) : list str :=
  match orUndefined (nth_error (columns r) EXCLUDED) with
  | Some v => split v comma
  | None => []
  end.

End Cid10Category.

Module Cid10Subcategory.

Definition CODE : nat := 0.
Definition CLASSIF : nat := 1.
Definition RESTR_BY_SEX : nat := 2.
Definition CAN_CAUSE_DEATH : nat := 3.
Definition DESCRIPTION : nat := 4.
Definition ABBREVIATION : nat := 5.
Definition REFER : nat := 6.
Definition EXCLUDED : nat := 7.

Definition new (row : str) : CidRecord := newCidRecord row.

Definition code (r : CidRecord) : option str := nth_error (columns r) CODE.

Definition classif (r : CidRecord) : option str :=
  orUndefined (nth_error (columns r) CLASSIF).

Definition restrBySex (r : CidRecord) : option str :=
  orUndefined (nth_error (columns r) RESTR_BY_SEX).

Definition canCauseDeath (r : CidRecord) : option str :=
  orUndefined (nth_error (columns r) CAN_CAUSE_DEATH).

Definition description (r : CidRecord) : option str :=
  nth_error (columns r) DESCRIPTION.

(** The optional group [(\.\d+)?]: what follows it.  When the dot is not
    followed by a digit the group matches nothing. *)
Definition decimals (s : str) : str :=
  match s with
  | "."%char :: s2 =>
      match takeWhile isDigit s2 with
      | _ :: _ => dropWhile isDigit s2
      | [] => s
      end
  | _ => s
  end.

(** [/^[A-Z]\d+(\.\d+)?\s+/]: what follows the match.  Giving the group up
    after it matched leaves the dot where a blank is required, so the
    greedy choice is the only one. *)
Definition codePrefix (s : str) : option str :=
  match s with
  | c :: s1 =>
      if isUpper c then
        match takeWhile isDigit s1,
              takeWhile Cid10Chapter.isSpace (decimals (dropWhile isDigit s1)) with
        | _ :: _, _ :: _ =>
            Some (dropWhile Cid10Chapter.isSpace
                    (decimals (dropWhile isDigit s1)))
        | _, _ => None
        end
      else None
  | [] => None
  end.

(** [get abbreviation()]: [this.$columns[ABBREVIATION].replace(..., '')]. *)
Definition abbreviation (r : CidRecord) : getter str :=
  match nth_error (columns r) ABBREVIATION with
  | None => TypeError
  | Some v =>
      value (match codePrefix v with
             | Some rest => rest
             | None => v
             end)
  end.

Definition refer (r : CidRecord) : option str :=
  orUndefined (nth_error (columns r) REFER).

Definition excluded (r : CidRecord) : list str :=
  match orUndefined (nth_error (columns r) EXCLUDED) with
  | Some v => split v comma
  | None => []
  end.

End Cid10Subcategory.

Module CidOGroup.

Definition CAT_FIRST : nat := 0.
Definition CAT_LAST : nat := 1.
Definition DESCRIPTION : nat := 2.
Definition REFER : nat := 3.

Definition new (row : str) : CidRecord := newCidRecord row.

Definition catFirst (r : CidRecord) : option str :=
  nth_error (columns r) CAT_FIRST.
Definition catLast (r : CidRecord) : option str :=
  nth_error (columns r) CAT_LAST.
Definition description (r : CidRecord) : option str :=
  nth_error (columns r) DESCRIPTION.
Definition refer (r : CidRecord) : option str :=
  orUndefined (nth_error (columns r) REFER).

End CidOGroup.

Module CidOCategory.

Definition CODE : nat := 0.
Definition DESCRIPTION : nat := 1.
Definition REFER : nat := 2.

Definition new (row : str) : CidRecord := newCidRecord row.

Definition code (r : CidRecord) : option str := nth_error (columns r) CODE.
Definition description (r : CidRecord) : option str :=
  nth_error (columns r) DESCRIPTION.
Definition refer (r : CidRecord) : option str :=
  orUndefined (nth_error (columns r) REFER).

End CidOCategory.

(** *** Notions used to state the properties of the records *)

(** [pieces.join(sep)]. *)
Fixpoint join (sep : str) (pieces : list str) : str :=
  match pieces with
  | [] => []
  | p :: ps =>
      match ps with
      | [] => p
      | _ :: _ => p ++ sep ++ join sep ps
      end
  end.

(** [s] is empty or its first character is not in the class [p]. *)
Definition stopsAt (p : ascii -> bool) (s : str) : bool :=
  match s with
  | [] => true
  | c :: _ => negb (p c)
  end.

(** [s] is what is left of [whole] once a prefix is removed. *)
Definition suffixOf (s whole : str) : Prop := exists prefix, whole = prefix ++ s.

(** ** Contents used as examples

    The scenarios of the specification, with the terminator written out. *)

Module Scenario.

(** ["h1;h2;h3;\r\nv1;v2;v3;\r\n"]. *)
Definition table : str :=
  lit "h1;h2;h3" ++ LINEBRK ++ lit "v1;v2;v3" ++ LINEBRK.

(** The same content cut inside the terminators. *)
Definition tableCuts : list str :=
  [lit "h1;h2;h3;"; [CR; LF] ++ lit "v1;v2;v3;" ++ [CR]; [LF]].

(** ["h1;\r\nr1a;r1b;\r\n"] and ["r2a;r2b;\r\n"]: two chunks, one batch each. *)
Definition firstChunk : str := lit "h1" ++ LINEBRK ++ lit "r1a;r1b" ++ LINEBRK.
Definition secondChunk : str := lit "r2a;r2b" ++ LINEBRK.

(** ["h1;\r\nr1a;r1b;\r\nr2a;r2b"]: the last line has no terminator. *)
Definition truncated : str := firstChunk ++ lit "r2a;r2b".

Definition v123 : CidRecord := mkCidRecord [lit "v1"; lit "v2"; lit "v3"].
Definition r1 : CidRecord := mkCidRecord [lit "r1a"; lit "r1b"].
Definition r2 : CidRecord := mkCidRecord [lit "r2a"; lit "r2b"].

End Scenario.

(** ** The reader of [cidTableStream]

    The generator body declares its reading state with [let], so every call
    owns one [reading]; the stream callbacks and the promise executor
    [nextRowsQueue] are the only code that writes it. *)

(** [if (streamError)]: an unset variable is falsy, an error object truthy. *)
Definition isSome {A : Type} (o : option A) : bool :=
  match o with Some _ => true | None => false end.

Definition isNil {A : Type} (l : list A) : bool :=
  match l with [] => true | _ :: _ => false end.

Section TableStream.

(** What the read stream reports through ['error']. *)
Variable E : Type.
(** [InstanceType<T>] and [new Factory(row)]. *)
Variable T : Type.
Variable Factory : str -> T.

(** Values the promise can be rejected with: the private symbol [SKIPERR]
    or the stream's error. *)
Inductive rejection : Type :=
| SKIPERR
| streamFailure (err : E).

Record reading : Type := mkReading {
  streamError : option E;
  streamEnd : bool;
  buffer : str;
  rowsQueue : list str;
  breakLoop : bool }.

Definition initial : reading := mkReading None false [] [] false.

(** The ['data'] callback. *)
Definition read (s : reading) (chunk : str) : reading :=
  let buffer' := buffer s ++ chunk in
  let end' := lastIndexOf buffer' LINEBRK in
  if (end' >=? 0)%Z then
    let completeRows := slice buffer' 0 (Some end') in
    mkReading (streamError s) (streamEnd s)
      (slice buffer' (end' + Z.of_nat (length LINEBRK)) None)
      (rowsQueue s ++ [completeRows])
      (breakLoop s)
  else
    mkReading (streamError s) (streamEnd s) buffer' (rowsQueue s) (breakLoop s).

(** The three events of the read stream and their callbacks. *)
Inductive event : Type :=
| onData (chunk : str)
| onEnd
| onError (err : E).

Definition on (s : reading) (ev : event) : reading :=
  match ev with
  | onData chunk => read s chunk
  | onEnd =>
      mkReading (streamError s) true (buffer s) (rowsQueue s) (breakLoop s)
  | onError err =>
      mkReading (Some err) (streamEnd s) (buffer s) (rowsQueue s) (breakLoop s)
  end.

(** One execution of the promise executor: it resolves, rejects, or
    re-schedules itself with [setImmediate]. *)
Inductive settlement : Type :=
| resolve (queue : list str)
| reject (reason : rejection)
| setImmediate.

Definition nextRowsQueue (s : reading) : reading * settlement :=
  match streamError s with
  | Some err => (s, reject (streamFailure err))
  | None =>
      if 0 <? length (rowsQueue s) then
        (mkReading (streamError s) (streamEnd s) (buffer s) []
           ((length (buffer s) =? 0) && streamEnd s),
         resolve (rowsQueue s))
      else if negb (streamEnd s) then (s, setImmediate)
      else (s, reject SKIPERR)
  end.

(** How the generator ends. *)
Inductive completion : Type :=
| returned
| thrown (reason : rejection).

(** Where the generator stands between two of its steps: about to test the
    [while] condition, waiting on the pending promise, inside the two [for]
    loops (with the rows left in the current batch and the batches left in
    the queue the promise resolved with), or done. *)
Inductive control : Type :=
| loopHead
| awaiting
| iterating (rows : list str) (queue : list str)
| finished (c : completion).

Record generator : Type := mkGenerator {
  vars : reading;
  skip : bool;
  at' : control }.

Definition start : generator := mkGenerator initial true loopHead.

(** The test after the [try] statement. *)
Definition afterLoop (s : reading) : control :=
  match streamError s with
  | Some err => finished (thrown (streamFailure err))
  | None => finished returned
  end.

(** The [catch] clause: [SKIPERR] falls through, anything else is rethrown. *)
Definition catchLoop (s : reading) (loopError : rejection) : control :=
  match loopError with
  | SKIPERR => afterLoop s
  | streamFailure _ => finished (thrown loopError)
  end.

(** [await new Promise(nextRowsQueue)], for one run of the executor. *)
Definition await (g : generator) : generator * list T :=
  let sr := nextRowsQueue (vars g) in
  match snd sr with
  | resolve queue => (mkGenerator (fst sr) (skip g) (iterating [] queue), [])
  | reject reason =>
      (mkGenerator (fst sr) (skip g) (catchLoop (fst sr) reason), [])
  | setImmediate => (mkGenerator (fst sr) (skip g) awaiting, [])
  end.

(** One step of the generator, with the row it yields if any: the [while]
    test followed by the executor, a re-scheduled run of the executor, or
    one iteration of the [for] loops. *)
Definition resume (g : generator) : generator * list T :=
  match at' g with
  | loopHead =>
      if negb (breakLoop (vars g)) && negb (isSome (streamError (vars g)))
      then await g
      else (mkGenerator (vars g) (skip g) (afterLoop (vars g)), [])
  | awaiting => await g
  | iterating (row :: rows) queue =>
      if negb (skip g)
      then (mkGenerator (vars g) (skip g) (iterating rows queue), [Factory row])
      else (mkGenerator (vars g) false (iterating rows queue), [])
  | iterating [] (completeRows :: queue) =>
      (mkGenerator (vars g) (skip g)
         (iterating (split completeRows LINEBRK) queue), [])
  | iterating [] [] => (mkGenerator (vars g) (skip g) loopHead, [])
  | finished _ => (g, [])
  end.

(** What the event loop runs next: a stream callback, or the generator for
    one step.  The generator really gives way only while the promise is
    pending and at a [yield]; schedules that interleave callbacks anywhere
    include every execution. *)
Inductive action : Type :=
| source (ev : event)
| turn.

Definition step (acc : generator * list T) (a : action) : generator * list T :=
  match a with
  | source ev =>
      (mkGenerator (on (vars (fst acc)) ev) (skip (fst acc)) (at' (fst acc)),
       snd acc)
  | turn => let r := resume (fst acc) in (fst r, snd acc ++ snd r)
  end.

Definition run (sched : list action) : generator * list T :=
  fold_left step sched (start, []).

(** The rows yielded under a schedule, and where the generator stands. *)
Definition cidTableStream (sched : list action) : list T * control :=
  (snd (run sched), at' (fst (run sched))).

(** *** Schedules *)

(** The chunks a schedule delivers, in order. *)
Fixpoint dataOf (sched : list action) : list str :=
  match sched with
  | [] => []
  | source (onData chunk) :: rest => chunk :: dataOf rest
  | _ :: rest => dataOf rest
  end.

(** Schedules in which the stream neither ends nor fails. *)
Definition dataOnly (sched : list action) : bool :=
  forallb (fun a => match a with
                    | source onEnd | source (onError _) => false
                    | _ => true
                    end) sched.

(** The stream delivers its chunks, interleaved with generator steps as
    [pre] says, then ends, and the generator takes [k] more steps. *)
Definition toEnd (pre : list action) (k : nat) : list action :=
  pre ++ source onEnd :: repeat turn k.

(** After [pre] the stream fails, and the generator takes [k] more steps. *)
Definition toFailure (pre : list action) (e : E) (k : nat) : list action :=
  pre ++ source (onError e) :: repeat turn k.

Definition isFinished (c : control) : bool :=
  match c with finished _ => true | _ => false end.

(** Reading [pre] to the end of the stream completes with [result]: from
    some number of steps on the generator is done, and whenever it is done
    it has yielded and completed as [result] says. *)
Definition completes (pre : list action) (result : list T * control) : Prop :=
  (exists n, forall k, n <= k -> cidTableStream (toEnd pre k) = result) /\
  (forall k, isFinished (snd (cidTableStream (toEnd pre k))) = true ->
             cidTableStream (toEnd pre k) = result).

(** The same when the stream fails after [pre]. *)
Definition fails (pre : list action) (e : E) (result : list T * control) : Prop :=
  (exists n, forall k, n <= k -> cidTableStream (toFailure pre e k) = result) /\
  (forall k, isFinished (snd (cidTableStream (toFailure pre e k))) = true ->
             cidTableStream (toFailure pre e k) = result).

(** The batches the ['data'] callback pushes for a sequence of chunks. *)
Definition assemble (chunks : list str) : reading := fold_left read chunks initial.
Definition batches (chunks : list str) : list str := rowsQueue (assemble chunks).

(** The lines of a list of batches. *)
Definition rowsOf (bs : list str) : list str :=
  concat (map (fun b => split b LINEBRK) bs).

(** Reference, following the specification's words: split the whole decoded
    content on the terminator, keep the terminated lines, drop the header. *)
Definition completeLines (content : str) : list str :=
  removelast (split content LINEBRK).
Definition referenceRows (content : str) : list str :=
  tl (completeLines content).

(** *** Notions used to state the properties *)

(** Terminating every batch again and appending the buffer gives back what
    was fed. *)
Definition unsplit (bs : list str) (rest : str) : str :=
  concat (map (fun b => b ++ LINEBRK) bs) ++ rest.

(** The rows the [for] loops still have to go through. *)
Definition pendingRows (c : control) : list str :=
  match c with
  | iterating rows queue => rows ++ rowsOf queue
  | _ => []
  end.

(** [all] are the batches pushed so far: the generator has taken [deq] of
    them and the others are queued; of the lines of [deq] it has gone
    through [done], yielding the record of each but the first. *)
Definition tracks (all : list str) (g : generator) (out : list T) : Prop :=
  exists deq done,
    all = deq ++ rowsQueue (vars g) /\
    rowsOf deq = done ++ pendingRows (at' g) /\
    out = map Factory (tl done) /\
    skip g = isNil done.

(** The invariant of every schedule. *)
Definition consistent (sched : list action) (r : generator * list T) : Prop :=
  tracks (batches (dataOf sched)) (fst r) (snd r) /\
  buffer (assemble (dataOf sched)) = buffer (vars (fst r)).

(** While the stream is delivering data: no failure, no end, and the
    generator is still running. *)
Definition live (g : generator) : Prop :=
  streamError (vars g) = None /\ streamEnd (vars g) = false /\
  breakLoop (vars g) = false /\ isFinished (at' g) = false.

(** After the end of a stream that did not fail. *)
Definition ended (g : generator) : Prop :=
  streamError (vars g) = None /\ streamEnd (vars g) = true /\
  (breakLoop (vars g) = true -> rowsQueue (vars g) = []) /\
  (forall c, at' g = finished c -> c = returned /\ rowsQueue (vars g) = []).

(** After the failure [e] of the stream, with [queue] left in the queue. *)
Definition failed (e : E) (queue : list str) (g : generator) : Prop :=
  streamError (vars g) = Some e /\ rowsQueue (vars g) = queue /\
  (forall c, at' g = finished c -> c = thrown (streamFailure e)).

(** A bound on the steps the generator still takes once the stream has
    ended or failed. *)
Definition passes (bs : list str) : nat := length bs + length (rowsOf bs).

Definition headTurns (s : reading) : nat :=
  if isSome (streamError s) then 1
  else match rowsQueue s with
       | [] => 1
       | _ :: _ => passes (rowsQueue s) + 3
       end.

Definition turnsLeft (g : generator) : nat :=
  match at' g with
  | finished _ => 0
  | loopHead | awaiting => headTurns (vars g)
  | iterating rows queue => length rows + passes queue + 1 + headTurns (vars g)
  end.

(** The generator completed by throwing the private symbol. *)
Definition sentinelThrown (c : control) : bool :=
  match c with
  | finished (thrown SKIPERR) => true
  | _ => false
  end.

(** *** Two calls side by side

    Every variable of the reader is declared in the body of the generator
    function, so a call of [cidTableStream] creates an environment record of
    its own; the callbacks registered on its stream and the generator it
    returns are closures over that record.  The records of all the calls
    live in one store, and the code of a call reaches a record through the
    reference the call was given. *)
Definition frame : Type := generator * list T.
Definition store : Type := list frame.

Definition lookup (st : store) (env : nat) : frame := nth env st (start, []).
Arguments lookup st env : simpl never.

Fixpoint put (st : store) (env : nat) (fr : frame) : store :=
  match st, env with
  | [], _ => []
  | _ :: rest, 0 => fr :: rest
  | x :: rest, S env' => x :: put rest env' fr
  end.

(** A variable of the generator body, as it is read and assigned in a
    record. *)
Record variable (A : Type) : Type := mkVariable {
  valueIn : frame -> A;
  assignIn : A -> frame -> frame }.
Arguments mkVariable {A} valueIn assignIn.
Arguments valueIn {A} v fr.
Arguments assignIn {A} v x fr.

Definition onVars (f : reading -> reading) (fr : frame) : frame :=
  (mkGenerator (f (vars (fst fr))) (skip (fst fr)) (at' (fst fr)), snd fr).

Definition streamErrorVar : variable (option E) :=
  mkVariable (fun fr => streamError (vars (fst fr)))
    (fun x => onVars (fun s =>
       mkReading x (streamEnd s) (buffer s) (rowsQueue s) (breakLoop s))).

Definition streamEndVar : variable bool :=
  mkVariable (fun fr => streamEnd (vars (fst fr)))
    (fun x => onVars (fun s =>
       mkReading (streamError s) x (buffer s) (rowsQueue s) (breakLoop s))).

Definition bufferVar : variable str :=
  mkVariable (fun fr => buffer (vars (fst fr)))
    (fun x => onVars (fun s =>
       mkReading (streamError s) (streamEnd s) x (rowsQueue s) (breakLoop s))).

Definition rowsQueueVar : variable (list str) :=
  mkVariable (fun fr => rowsQueue (vars (fst fr)))
    (fun x => onVars (fun s =>
       mkReading (streamError s) (streamEnd s) (buffer s) x (breakLoop s))).

Definition breakLoopVar : variable bool :=
  mkVariable (fun fr => breakLoop (vars (fst fr)))
    (fun x => onVars (fun s =>
       mkReading (streamError s) (streamEnd s) (buffer s) (rowsQueue s) x)).

Definition skipVar : variable bool :=
  mkVariable (fun fr => skip (fst fr))
    (fun x fr => (mkGenerator (vars (fst fr)) x (at' (fst fr)), snd fr)).

(** Where the generator of the record stands, and what it has yielded. *)
Definition atVar : variable control :=
  mkVariable (fun fr => at' (fst fr))
    (fun x fr => (mkGenerator (vars (fst fr)) (skip (fst fr)) x, snd fr)).

Definition yieldedVar : variable (list T) :=
  mkVariable (fun fr => snd fr) (fun x fr => (fst fr, x)).

(** Code running against the store. *)
Definition prog (A : Type) : Type := store -> A * store.

Definition ret {A : Type} (x : A) : prog A := fun st => (x, st).

Definition bind {A B : Type} (m : prog A) (k : A -> prog B) : prog B :=
  fun st => k (fst (m st)) (snd (m st)).

Notation "x <- m ;; k" := (bind m (fun x => k))
  (at level 61, m at next level, right associativity).
Notation "m ;; k" := (bind m (fun _ => k))
  (at level 61, right associativity).

Definition load {A : Type} (env : nat) (v : variable A) : prog A :=
  fun st => (valueIn v (lookup st env), st).

Definition assign {A : Type} (env : nat) (v : variable A) (x : A) : prog unit :=
  fun st => (tt, put st env (assignIn v x (lookup st env))).

(** The call itself: a new record holding the initial values of the
    declarations, whose reference the closures of the call keep. *)
Definition invoke : prog nat :=
  fun st => (length st, st ++ [(start, [])]).

(** [read], closed over the record at [env]. *)
Definition readAt (env : nat) (chunk : str) : prog unit :=
  b <- load env bufferVar ;;
  assign env bufferVar (b ++ chunk) ;;
  b' <- load env bufferVar ;;
  let end' := lastIndexOf b' LINEBRK in
  if (end' >=? 0)%Z then
    let completeRows := slice b' 0 (Some end') in
    assign env bufferVar (slice b' (end' + Z.of_nat (length LINEBRK)) None) ;;
    q <- load env rowsQueueVar ;;
    assign env rowsQueueVar (q ++ [completeRows])
  else ret tt.

(** The callbacks the call registers on its stream. *)
Definition onAt (env : nat) (ev : event) : prog unit :=
  match ev with
  | onData chunk => readAt env chunk
  | onEnd => assign env streamEndVar true
  | onError err => assign env streamErrorVar (Some err)
  end.

(** [nextRowsQueue], closed over the record at [env]. *)
Definition nextRowsQueueAt (env : nat) : prog settlement :=
  err <- load env streamErrorVar ;;
  match err with
  | Some e => ret (reject (streamFailure e))
  | None =>
      q <- load env rowsQueueVar ;;
      if 0 <? length q then
        assign env rowsQueueVar [] ;;
        b <- load env bufferVar ;;
        ended' <- load env streamEndVar ;;
        assign env breakLoopVar ((length b =? 0) && ended') ;;
        ret (resolve q)
      else
        ended' <- load env streamEndVar ;;
        if negb ended' then ret setImmediate else ret (reject SKIPERR)
  end.

Definition afterLoopAt (env : nat) : prog unit :=
  err <- load env streamErrorVar ;;
  match err with
  | Some e => assign env atVar (finished (thrown (streamFailure e)))
  | None => assign env atVar (finished returned)
  end.

Definition catchLoopAt (env : nat) (loopError : rejection) : prog unit :=
  match loopError with
  | SKIPERR => afterLoopAt env
  | streamFailure _ => assign env atVar (finished (thrown loopError))
  end.

Definition awaitAt (env : nat) : prog unit :=
  settled <- nextRowsQueueAt env ;;
  match settled with
  | resolve queue => assign env atVar (iterating [] queue)
  | reject reason => catchLoopAt env reason
  | setImmediate => assign env atVar awaiting
  end.

(** One step of the generator whose record is at [env]. *)
Definition resumeAt (env : nat) : prog unit :=
  c <- load env atVar ;;
  match c with
  | loopHead =>
      stop <- load env breakLoopVar ;;
      err <- load env streamErrorVar ;;
      if negb stop && negb (isSome err) then awaitAt env else afterLoopAt env
  | awaiting => awaitAt env
  | iterating (row :: rows) queue =>
      skip' <- load env skipVar ;;
      if negb skip' then
        assign env atVar (iterating rows queue) ;;
        out <- load env yieldedVar ;;
        assign env yieldedVar (out ++ [Factory row])
      else
        assign env skipVar false ;;
        assign env atVar (iterating rows queue)
  | iterating [] (completeRows :: queue) =>
      assign env atVar (iterating (split completeRows LINEBRK) queue)
  | iterating [] [] => assign env atVar loopHead
  | finished _ => ret tt
  end.

Definition stepAt (env : nat) (a : action) : prog unit :=
  match a with
  | source ev => onAt env ev
  | turn => resumeAt env
  end.

(** Two calls, made one after the other in a store that may hold the
    records of earlier calls; then the event loop runs the callbacks and the
    generators of the two in any order. *)
Inductive call : Type := callA | callB.

Definition sameCall (c d : call) : bool :=
  match c, d with
  | callA, callA | callB, callB => true
  | _, _ => false
  end.

Definition twoCalls : prog (nat * nat) :=
  a <- invoke ;;
  b <- invoke ;;
  ret (a, b).

Definition envOf (envs : nat * nat) (c : call) : nat :=
  match c with
  | callA => fst envs
  | callB => snd envs
  end.

Definition step2 (envs : nat * nat) (st : store) (ca : call * action) : store :=
  snd (stepAt (envOf envs (fst ca)) (snd ca) st).

Definition run2 (st0 : store) (sched : list (call * action)) : store :=
  fold_left (step2 (fst (twoCalls st0))) sched (snd (twoCalls st0)).

(** The rows a call has yielded under a schedule of the two, and where its
    generator stands. *)
Definition cidTableStream2 (st0 : store) (sched : list (call * action))
    (c : call) : list T * control :=
  let fr := lookup (run2 st0 sched) (envOf (fst (twoCalls st0)) c) in
  (snd fr, at' (fst fr)).

Definition actionsOf (c : call) (sched : list (call * action)) : list action :=
  map snd (filter (fun ca => sameCall c (fst ca)) sched).

(** A number of steps after which a reading of [pre] to the end of the
    stream is done. *)
Definition stepsToEnd (pre : list action) : nat :=
  turnsLeft (fst (run (toEnd pre 0))).

(** *** Schedules used as examples *)

(** The rows derivable from all the batches pushed for a list of chunks. *)
Definition derivableRows (chunks : list str) : list T :=
  map Factory (tl (rowsOf (batches chunks))).

(** The generator takes [n] steps at first and after every chunk. *)
Definition paced (n : nat) (chunks : list str) : list action :=
  repeat turn n ++
  flat_map (fun chunk => source (onData chunk) :: repeat turn n) chunks.

(** The caller is slow after the first row.  The first call of [next] leaves
    the promise pending; the first chunk arrives; the executor resolves; the
    loops enter the batch, skip the header and yield the first row.  While
    the caller holds that row the second chunk arrives and then the stream
    fails.  Resumed, the generator leaves the loops and tests the [while]
    condition. *)
Definition slowConsumer (e : E) : list action :=
  [turn; source (onData Scenario.firstChunk); turn; turn; turn; turn;
   source (onData Scenario.secondChunk); source (onError e); turn; turn].

(** The generator has taken the only batch, after the end of the stream, and
    has yielded its row. *)
Definition lastBatchTaken : list action :=
  [turn; source (onData Scenario.firstChunk); source onEnd;
   turn; turn; turn; turn].

(** Two calls, their actions alternating. *)
Fixpoint alternate (a b : list action) : list (call * action) :=
  match a, b with
  | x :: a', y :: b' => (callA, x) :: (callB, y) :: alternate a' b'
  | _, [] => map (pair callA) a
  | [], _ => map (pair callB) b
  end.

(** ** Facts about the string primitives *)

Section JsFacts.

Lemma split_nil a sep : split [] (a :: sep) = [[]].
Proof. simp split. reflexivity. Qed.

Lemma split_cons c s a sep :
  split (c :: s) (a :: sep) =
  if startsWith (a :: sep) (c :: s)
  then [] :: split (skipn (length sep) s) (a :: sep)
  else consHead c (split s (a :: sep)).
Proof.
  simp split. destruct (startsWith (a :: sep) (c :: s)); simpl; reflexivity.
Qed.

Lemma consHead_app c ps qs : ps <> [] -> consHead c (ps ++ qs) = consHead c ps ++ qs.
Proof. destruct ps; [congruence | reflexivity]. Qed.

Lemma split_nonempty s a sep : split s (a :: sep) <> [].
Proof.
  destruct s as [|c s].
  - rewrite split_nil. discriminate.
  - rewrite split_cons. destruct (startsWith _ _); [discriminate |].
    destruct (split s (a :: sep)); discriminate.
Qed.

Lemma startsWith_app sep r : startsWith sep (sep ++ r) = true.
Proof.
  induction sep as [|a sep IH]; simpl; [reflexivity |].
  rewrite Ascii.eqb_refl. exact IH.
Qed.

Lemma startsWith_inv sep s :
  startsWith sep s = true -> s = sep ++ skipn (length sep) s.
Proof.
  revert s. induction sep as [|a sep IH]; intros [|b s]; simpl;
    try reflexivity; try discriminate.
  intros H. apply andb_prop in H as [H1 H2].
  apply Ascii.eqb_eq in H1. subst b. f_equal. apply IH. exact H2.
Qed.

Lemma includes_head s sep : startsWith sep s = true -> includes s sep = true.
Proof. intros H. destruct s; simpl; rewrite H; reflexivity. Qed.

Lemma includes_false_head s sep :
  includes s sep = false -> startsWith sep s = false.
Proof.
  intros H. destruct (startsWith sep s) eqn:Hw; [| reflexivity].
  rewrite (includes_head _ _ Hw) in H. discriminate.
Qed.

Lemma includes_false_tail c s sep :
  includes (c :: s) sep = false -> includes s sep = false.
Proof. cbn [includes]. intros H. apply orb_false_elim in H. tauto. Qed.

Lemma includes_false_skipn n s sep :
  includes s sep = false -> includes (skipn n s) sep = false.
Proof.
  revert s. induction n as [|n IH]; intros s H; [exact H |].
  destruct s as [|c s]; [exact H |].
  cbn [skipn]. apply IH. eapply includes_false_tail. exact H.
Qed.

Lemma includes_occursIn s sep : includes s sep = true <-> occursIn sep s.
Proof.
  split.
  - induction s as [|c s IH]; cbn [includes]; intros H.
    + rewrite orb_false_r in H. apply startsWith_inv in H.
      destruct sep; [exists [], []; reflexivity | discriminate].
    + apply orb_prop in H as [H | H].
      * exists [], (skipn (length sep) (c :: s)). apply startsWith_inv. exact H.
      * destruct (IH H) as (a & b & ->). exists (c :: a), b. reflexivity.
  - intros (a & b & ->). induction a as [|c a IH].
    + apply includes_head. apply (startsWith_app sep b).
    + cbn [app includes]. rewrite IH. apply orb_true_r.
Qed.

Lemma lastOccurrence_None s sep :
  lastOccurrence s sep = None <-> includes s sep = false.
Proof.
  induction s as [|c s IH]; cbn [lastOccurrence includes].
  - rewrite orb_false_r. destruct (startsWith sep []); split; congruence.
  - destruct (lastOccurrence s sep) eqn:Hl.
    + split; [discriminate |]. intros H. apply orb_false_elim in H as [_ H].
      apply IH in H. discriminate.
    + destruct IH as [IH _]. rewrite (IH eq_refl), orb_false_r.
      destruct (startsWith sep (c :: s)); split; congruence.
Qed.

Lemma lastOccurrence_Some s a sep i :
  lastOccurrence s (a :: sep) = Some i ->
  startsWith (a :: sep) (skipn i s) = true /\
  includes (skipn (S i) s) (a :: sep) = false.
Proof.
  revert i. induction s as [|c s IH]; intros i; cbn [lastOccurrence].
  - cbn. discriminate.
  - destruct (lastOccurrence s (a :: sep)) as [j|] eqn:Hl.
    + intros [= <-]. cbn [skipn]. apply IH. reflexivity.
    + destruct (startsWith (a :: sep) (c :: s)) eqn:Es; [| discriminate].
      intros [= <-]. cbn [skipn]. split; [exact Es |].
      apply lastOccurrence_None. exact Hl.
Qed.

(** The last occurrence cuts the string into what precedes it, the separator
    and a remainder in which the separator does not occur. *)
Lemma lastOccurrence_cut s a sep i :
  lastOccurrence s (a :: sep) = Some i ->
  s = firstn i s ++ (a :: sep) ++ skipn (i + length (a :: sep)) s /\
  includes (skipn (i + length (a :: sep)) s) (a :: sep) = false.
Proof.
  intros H. apply lastOccurrence_Some in H as [H1 H2].
  apply startsWith_inv in H1. rewrite skipn_skipn in H1.
  replace (i + length (a :: sep)) with (length (a :: sep) + i) by lia.
  split.
  - rewrite <- H1. symmetry. apply firstn_skipn.
  - replace (length (a :: sep) + i) with (length sep + S i) by (simpl; lia).
    rewrite <- skipn_skipn. apply includes_false_skipn. exact H2.
Qed.

Lemma lastOccurrence_bound s a sep i :
  lastOccurrence s (a :: sep) = Some i -> i + length (a :: sep) <= length s.
Proof.
  intros H. apply lastOccurrence_Some in H as [H _].
  apply startsWith_inv in H. apply (f_equal (@length _)) in H.
  rewrite length_app, length_skipn in H.
  cbn [length] in *. lia.
Qed.

Lemma slice_prefix s i :
  i <= length s -> slice s 0 (Some (Z.of_nat i)) = firstn i s.
Proof.
  intros H. unfold slice, relIndex.
  replace (0 <? 0)%Z with false by reflexivity.
  replace (Z.of_nat i <? 0)%Z with false by (symmetry; apply Z.ltb_ge; lia).
  rewrite !Z.min_l by lia. rewrite Z.sub_0_r, Nat2Z.id. reflexivity.
Qed.

Lemma slice_suffix s k : slice s (Z.of_nat k) None = skipn k s.
Proof.
  unfold slice, relIndex.
  replace (Z.of_nat k <? 0)%Z with false by (symmetry; apply Z.ltb_ge; lia).
  destruct (Nat.le_gt_cases k (length s)) as [H | H].
  - rewrite Z.min_l by lia. rewrite Nat2Z.id.
    apply firstn_all2. rewrite length_skipn. lia.
  - rewrite Z.min_r by lia. rewrite Nat2Z.id.
    rewrite !skipn_all2 by lia. apply firstn_nil.
Qed.

(** *** The record terminator never overlaps itself *)

Lemma startsWith_LINEBRK_straddle c x y :
  startsWith LINEBRK ((c :: x) ++ LINEBRK ++ y) = startsWith LINEBRK (c :: x).
Proof.
  destruct x as [|c2 [|c3 x]]; cbn;
    rewrite ?andb_false_r, ?andb_true_r; reflexivity.
Qed.

Lemma split_LINEBRK_nil : split [] LINEBRK = [[]].
Proof. apply split_nil. Qed.

Lemma split_LINEBRK_cons c s :
  split (c :: s) LINEBRK =
  if startsWith LINEBRK (c :: s)
  then [] :: split (skipn 2 s) LINEBRK
  else consHead c (split s LINEBRK).
Proof. exact (split_cons c s ";"%char [CR; LF]). Qed.

Lemma split_LINEBRK_head y : split (LINEBRK ++ y) LINEBRK = [] :: split y LINEBRK.
Proof.
  pose proof (startsWith_app LINEBRK y) as H.
  change (LINEBRK ++ y) with (";"%char :: [CR; LF] ++ y) in *.
  rewrite split_LINEBRK_cons, H. reflexivity.
Qed.

Lemma split_app_LINEBRK x y :
  split (x ++ LINEBRK ++ y) LINEBRK = split x LINEBRK ++ split y LINEBRK.
Proof.
  remember (length x) as n eqn:Hn. revert x Hn.
  induction n as [n IH] using lt_wf_ind. intros [|c x] Hn.
  - cbn [app]. rewrite split_LINEBRK_head, split_LINEBRK_nil. reflexivity.
  - pose proof (startsWith_LINEBRK_straddle c x y) as Hs.
    cbn [app] in *. rewrite !split_LINEBRK_cons, Hs.
    destruct (startsWith LINEBRK (c :: x)) eqn:Hw.
    + apply startsWith_inv in Hw. injection Hw as _ Hw.
      cbn [length] in Hw. rewrite Hw. cbn [app skipn]. f_equal.
      apply (IH (length (skipn 2 x))); [| reflexivity].
      subst n. rewrite length_skipn. simpl. lia.
    + rewrite (IH (length x)) by (subst n; simpl; lia || reflexivity).
      apply consHead_app. apply split_nonempty.
Qed.

Lemma split_no_LINEBRK s : includes s LINEBRK = false -> split s LINEBRK = [s].
Proof.
  induction s as [|c s IH]; intros H.
  - apply split_LINEBRK_nil.
  - rewrite split_LINEBRK_cons, (includes_false_head _ _ H).
    rewrite IH by (eapply includes_false_tail; exact H). reflexivity.
Qed.

Lemma lastOccurrence_LINEBRK pre rest :
  includes rest LINEBRK = false ->
  lastOccurrence (pre ++ LINEBRK ++ rest) LINEBRK = Some (length pre).
Proof.
  intros H. induction pre as [|c pre IH].
  - apply lastOccurrence_None in H. cbn [app LINEBRK lastOccurrence].
    fold LINEBRK. rewrite H. cbn. reflexivity.
  - cbn [app lastOccurrence length]. rewrite IH. reflexivity.
Qed.

(** *** Splitting and joining *)

Lemma join_consHead sep c p ps :
  join sep (consHead c (p :: ps)) = c :: join sep (p :: ps).
Proof. destruct ps; reflexivity. Qed.

Lemma join_cons sep p q qs : join sep (p :: q :: qs) = p ++ sep ++ join sep (q :: qs).
Proof. reflexivity. Qed.

(** Joining the pieces with the separator gives the string back. *)
Lemma join_split s a sep : join (a :: sep) (split s (a :: sep)) = s.
Proof.
  remember (length s) as n eqn:Hn. revert s Hn.
  induction n as [n IH] using lt_wf_ind. intros [|c s] Hn.
  - rewrite split_nil. reflexivity.
  - rewrite split_cons. destruct (startsWith (a :: sep) (c :: s)) eqn:Hw.
    + pose proof (split_nonempty (skipn (length sep) s) a sep) as Hne.
      destruct (split (skipn (length sep) s) (a :: sep)) as [|q qs] eqn:Hq;
        [congruence |].
      rewrite join_cons, <- Hq.
      rewrite (IH (length (skipn (length sep) s)));
        [| subst n; rewrite length_skipn; simpl; lia | reflexivity].
      apply startsWith_inv in Hw. cbn [app]. symmetry. exact Hw.
    + pose proof (split_nonempty s a sep) as Hne.
      destruct (split s (a :: sep)) as [|q qs] eqn:Hq; [congruence |].
      rewrite join_consHead, <- Hq.
      rewrite (IH (length s)); [reflexivity | subst n; simpl; lia | reflexivity].
Qed.

Lemma join_head sep p ps : exists rest, join sep (p :: ps) = p ++ rest.
Proof.
  destruct ps as [|q qs].
  - exists []. cbn. rewrite app_nil_r. reflexivity.
  - exists (sep ++ join sep (q :: qs)). reflexivity.
Qed.

Lemma startsWith_prefix sep x y :
  startsWith sep x = true -> startsWith sep (x ++ y) = true.
Proof.
  intros H. apply startsWith_inv in H. rewrite H, <- app_assoc.
  apply startsWith_app.
Qed.

(** No piece of a split holds the separator. *)
Lemma split_clean s a sep :
  forallb (fun p => negb (includes p (a :: sep))) (split s (a :: sep)) = true.
Proof.
  remember (length s) as n eqn:Hn. revert s Hn.
  induction n as [n IH] using lt_wf_ind. intros [|c s] Hn.
  - rewrite split_nil. reflexivity.
  - rewrite split_cons. destruct (startsWith (a :: sep) (c :: s)) eqn:Hw.
    + cbn [forallb]. apply andb_true_intro. split; [reflexivity |].
      apply (IH (length (skipn (length sep) s)));
        [subst n; rewrite length_skipn; simpl; lia | reflexivity].
    + pose proof (IH (length s) ltac:(subst n; simpl; lia) s eq_refl) as Hs.
      pose proof (join_split s a sep) as Hj.
      pose proof (split_nonempty s a sep) as Hne.
      destruct (split s (a :: sep)) as [|q qs]; [congruence |].
      cbn [consHead forallb] in *. apply andb_prop in Hs as [Hq Hqs].
      rewrite Hqs, andb_true_r. cbn [includes].
      apply negb_true_iff in Hq. rewrite Hq, orb_false_r.
      apply negb_true_iff. destruct (startsWith (a :: sep) (c :: q)) eqn:Hcq;
        [| reflexivity].
      destruct (join_head (a :: sep) q qs) as (rest & Hrest).
      rewrite Hrest in Hj. rewrite <- Hj in Hw.
      pose proof (startsWith_prefix (a :: sep) (c :: q) rest Hcq) as Hp.
      cbn [app] in Hp. congruence.
Qed.

(** With a one-character separator there is one piece more than there are
    separators. *)
Lemma split_char_length s c0 :
  length (split s [c0]) = S (count_occ ascii_dec s c0).
Proof.
  induction s as [|c s IH].
  - rewrite split_nil. reflexivity.
  - rewrite split_cons. cbn [startsWith length skipn].
    rewrite andb_true_r. destruct (Ascii.eqb_spec c0 c) as [-> | Hne].
    + rewrite count_occ_cons_eq by reflexivity. cbn [length]. rewrite IH.
      reflexivity.
    + rewrite count_occ_cons_neq by congruence. rewrite <- IH.
      pose proof (split_nonempty s c0 []) as Hs.
      destruct (split s [c0]); [congruence | reflexivity].
Qed.

(** *** Runs of characters *)

Lemma takeWhile_dropWhile p s : takeWhile p s ++ dropWhile p s = s.
Proof.
  induction s as [|c s IH]; [reflexivity |].
  cbn. destruct (p c); cbn; [rewrite IH |]; reflexivity.
Qed.

Lemma takeWhile_all p s : forallb p (takeWhile p s) = true.
Proof.
  induction s as [|c s IH]; [reflexivity |].
  cbn. destruct (p c) eqn:Hc; cbn; [rewrite Hc, IH |]; reflexivity.
Qed.

Lemma dropWhile_stops p s : stopsAt p (dropWhile p s) = true.
Proof.
  induction s as [|c s IH]; [reflexivity |].
  cbn. destruct (p c) eqn:Hc; [exact IH |]. cbn. rewrite Hc. reflexivity.
Qed.

Lemma takeWhile_run p xs ys :
  forallb p xs = true -> stopsAt p ys = true -> takeWhile p (xs ++ ys) = xs.
Proof.
  intros Hx Hy. induction xs as [|x xs IH].
  - destruct ys as [|y ys]; [reflexivity |].
    cbn in *. apply negb_true_iff in Hy. rewrite Hy. reflexivity.
  - cbn in *. apply andb_prop in Hx as [Hx Hxs]. rewrite Hx, IH by exact Hxs.
    reflexivity.
Qed.

Lemma dropWhile_run p xs ys :
  forallb p xs = true -> stopsAt p ys = true -> dropWhile p (xs ++ ys) = ys.
Proof.
  intros Hx Hy. induction xs as [|x xs IH].
  - destruct ys as [|y ys]; [reflexivity |].
    cbn in *. apply negb_true_iff in Hy. rewrite Hy. reflexivity.
  - cbn in *. apply andb_prop in Hx as [Hx Hxs]. rewrite Hx. apply IH.
    exact Hxs.
Qed.

Lemma dropWhile_suffix p s : suffixOf (dropWhile p s) s.
Proof. exists (takeWhile p s). symmetry. apply takeWhile_dropWhile. Qed.

Lemma suffixOf_refl s : suffixOf s s.
Proof. exists []. reflexivity. Qed.

Lemma suffixOf_trans a b c : suffixOf a b -> suffixOf b c -> suffixOf a c.
Proof.
  intros (x & ->) (y & ->). exists (y ++ x). apply app_assoc.
Qed.

Lemma suffixOf_cons c a b : suffixOf a b -> suffixOf a (c :: b).
Proof. intros (x & ->). exists (c :: x). reflexivity. Qed.

Lemma suffixOf_skipn n s : suffixOf (skipn n s) s.
Proof. exists (firstn n s). symmetry. apply firstn_skipn. Qed.

End JsFacts.

(** *** The assembly step *)

Lemma read_found s chunk pre rest :
  buffer s ++ chunk = pre ++ LINEBRK ++ rest ->
  includes rest LINEBRK = false ->
  read s chunk =
  mkReading (streamError s) (streamEnd s) rest (rowsQueue s ++ [pre]) (breakLoop s).
Proof.
  intros Hcut Hrest. unfold read, lastIndexOf.
  rewrite Hcut, (lastOccurrence_LINEBRK pre rest Hrest).
  replace (Z.of_nat (length pre) >=? 0)%Z with true
    by (symmetry; apply Z.geb_le; lia).
  rewrite slice_prefix by (rewrite length_app; lia).
  rewrite <- Nat2Z.inj_add, slice_suffix.
  rewrite firstn_app, Nat.sub_diag, firstn_all, firstn_O, app_nil_r.
  rewrite skipn_app, skipn_all2 by lia.
  replace (length pre + length LINEBRK - length pre) with (length LINEBRK) by lia.
  reflexivity.
Qed.

Lemma read_absent s chunk :
  includes (buffer s ++ chunk) LINEBRK = false ->
  read s chunk =
  mkReading (streamError s) (streamEnd s) (buffer s ++ chunk) (rowsQueue s) (breakLoop s).
Proof.
  intros H. apply lastOccurrence_None in H.
  unfold read, lastIndexOf. rewrite H. reflexivity.
Qed.

Lemma cut_or_absent (b : str) :
  (exists pre rest, b = pre ++ LINEBRK ++ rest /\ includes rest LINEBRK = false) \/
  includes b LINEBRK = false.
Proof.
  destruct (lastOccurrence b LINEBRK) as [i|] eqn:Hl.
  - left. apply lastOccurrence_cut in Hl as [H1 H2]. eauto.
  - right. apply lastOccurrence_None. exact Hl.
Qed.

(** [read] looks at the buffer only and only appends to the queue. *)
Lemma read_frame s s0 chunk :
  buffer s = buffer s0 ->
  buffer (read s chunk) = buffer (read s0 chunk) /\
  exists new, rowsQueue (read s chunk) = rowsQueue s ++ new /\
              rowsQueue (read s0 chunk) = rowsQueue s0 ++ new.
Proof.
  intros H. unfold read. rewrite H.
  destruct (lastIndexOf (buffer s0 ++ chunk) LINEBRK >=? 0)%Z; cbn.
  - split; [reflexivity |]. eauto.
  - split; [reflexivity |]. exists []. rewrite !app_nil_r. auto.
Qed.

Lemma read_flags s chunk :
  streamError (read s chunk) = streamError s /\
  streamEnd (read s chunk) = streamEnd s /\
  breakLoop (read s chunk) = breakLoop s.
Proof.
  unfold read. destruct (lastIndexOf _ _ >=? 0)%Z; cbn; auto.
Qed.

Lemma read_buffer_clean s chunk : includes (buffer (read s chunk)) LINEBRK = false.
Proof.
  destruct (cut_or_absent (buffer s ++ chunk)) as [(pre & rest & Hc & Hr) | H].
  - rewrite (read_found s chunk pre rest Hc Hr). exact Hr.
  - rewrite (read_absent s chunk H). exact H.
Qed.

Lemma unsplit_snoc bs pre rest :
  unsplit (bs ++ [pre]) rest = unsplit bs (pre ++ LINEBRK ++ rest).
Proof.
  unfold unsplit. rewrite map_app, concat_app. cbn [map concat].
  rewrite app_nil_r, <- !app_assoc. reflexivity.
Qed.

Lemma read_unsplit s chunk :
  unsplit (rowsQueue (read s chunk)) (buffer (read s chunk)) =
  unsplit (rowsQueue s) (buffer s) ++ chunk.
Proof.
  destruct (cut_or_absent (buffer s ++ chunk)) as [(pre & rest & Hc & Hr) | H].
  - rewrite (read_found s chunk pre rest Hc Hr). cbn [rowsQueue buffer].
    rewrite unsplit_snoc, <- Hc. unfold unsplit. apply app_assoc.
  - rewrite (read_absent s chunk H). cbn [rowsQueue buffer].
    unfold unsplit. apply app_assoc.
Qed.

Lemma assemble_snoc chunks chunk :
  assemble (chunks ++ [chunk]) = read (assemble chunks) chunk.
Proof. unfold assemble. rewrite fold_left_app. reflexivity. Qed.

Lemma assemble_unsplit chunks :
  unsplit (batches chunks) (buffer (assemble chunks)) = concat chunks.
Proof.
  unfold batches. induction chunks as [|chunk chunks IH] using rev_ind.
  - reflexivity.
  - rewrite assemble_snoc, read_unsplit, IH, concat_app. cbn.
    rewrite app_nil_r. reflexivity.
Qed.

Lemma assemble_buffer_clean chunks :
  includes (buffer (assemble chunks)) LINEBRK = false.
Proof.
  destruct chunks as [|chunk chunks] using rev_ind.
  - reflexivity.
  - rewrite assemble_snoc. apply read_buffer_clean.
Qed.

Lemma split_unsplit bs rest :
  split (unsplit bs rest) LINEBRK = rowsOf bs ++ split rest LINEBRK.
Proof.
  unfold unsplit, rowsOf. induction bs as [|b bs IH]; [reflexivity |].
  cbn [map concat]. rewrite <- !app_assoc, split_app_LINEBRK, IH.
  reflexivity.
Qed.

Lemma completeLines_unsplit bs rest :
  includes rest LINEBRK = false -> completeLines (unsplit bs rest) = rowsOf bs.
Proof.
  intros H. unfold completeLines.
  rewrite split_unsplit, (split_no_LINEBRK _ H). apply removelast_last.
Qed.

Lemma completeLines_batches chunks :
  completeLines (concat chunks) = rowsOf (batches chunks).
Proof.
  rewrite <- (assemble_unsplit chunks).
  apply completeLines_unsplit. apply assemble_buffer_clean.
Qed.

Lemma rowsOf_app bs cs : rowsOf (bs ++ cs) = rowsOf bs ++ rowsOf cs.
Proof. unfold rowsOf. rewrite map_app, concat_app. reflexivity. Qed.

Lemma rowsOf_nonempty b bs : rowsOf (b :: bs) <> [].
Proof.
  unfold rowsOf. cbn [map concat]. intros H.
  apply app_eq_nil in H as [H _]. revert H. apply split_nonempty.
Qed.

(** *** The generator loop *)

Lemma run_snoc sched a : run (sched ++ [a]) = step (run sched) a.
Proof. unfold run. rewrite fold_left_app. reflexivity. Qed.

Lemma run_app sched rest : run (sched ++ rest) = fold_left step rest (run sched).
Proof. unfold run. apply fold_left_app. Qed.

Lemma dataOf_app sched rest : dataOf (sched ++ rest) = dataOf sched ++ dataOf rest.
Proof.
  induction sched as [|[[c| |err]|] sched IH]; cbn; rewrite ?IH; reflexivity.
Qed.

Lemma dataOf_turns k : dataOf (repeat turn k) = [].
Proof. induction k; cbn; auto. Qed.

Lemma dataOf_toEnd pre k : dataOf (toEnd pre k) = dataOf pre.
Proof.
  unfold toEnd. rewrite dataOf_app. cbn. rewrite dataOf_turns. apply app_nil_r.
Qed.

Lemma dataOf_toFailure pre e k : dataOf (toFailure pre e k) = dataOf pre.
Proof.
  unfold toFailure. rewrite dataOf_app. cbn. rewrite dataOf_turns.
  apply app_nil_r.
Qed.

(** Every list of chunks is delivered by some schedule. *)
Lemma dataOf_paced n chunks : dataOf (paced n chunks) = chunks.
Proof.
  unfold paced. rewrite dataOf_app, dataOf_turns. cbn [app].
  induction chunks as [|chunk chunks IH]; [reflexivity |].
  cbn [flat_map app dataOf]. rewrite dataOf_app, dataOf_turns, IH. reflexivity.
Qed.

Lemma dataOnly_turns k : dataOnly (repeat turn k) = true.
Proof. induction k; cbn; auto. Qed.

Lemma dataOnly_paced n chunks : dataOnly (paced n chunks) = true.
Proof.
  unfold paced, dataOnly. rewrite forallb_app. fold (dataOnly (repeat turn n)).
  rewrite dataOnly_turns. cbn [andb].
  induction chunks as [|chunk chunks IH]; [reflexivity |].
  cbn [flat_map app forallb]. rewrite forallb_app.
  fold (dataOnly (repeat turn n)). rewrite dataOnly_turns, IH. reflexivity.
Qed.

Lemma repeat_snoc (a : action) k : repeat a (S k) = repeat a k ++ [a].
Proof. induction k as [|k IH]; [reflexivity |]. cbn in *. rewrite <- IH. reflexivity. Qed.

Lemma toEnd_S pre k : toEnd pre (S k) = toEnd pre k ++ [turn].
Proof.
  unfold toEnd. rewrite repeat_snoc, app_comm_cons, app_assoc. reflexivity.
Qed.

Lemma toFailure_S pre e k : toFailure pre e (S k) = toFailure pre e k ++ [turn].
Proof.
  unfold toFailure. rewrite repeat_snoc, app_comm_cons, app_assoc. reflexivity.
Qed.

Lemma run_toEnd pre k :
  run (toEnd pre k) = fold_left step (repeat turn k) (run (toEnd pre 0)).
Proof.
  unfold toEnd. cbn [repeat].
  change (pre ++ source onEnd :: repeat turn k)
    with (pre ++ [source onEnd] ++ repeat turn k).
  rewrite app_assoc. apply run_app.
Qed.

Lemma run_toFailure pre e k :
  run (toFailure pre e k) =
  fold_left step (repeat turn k) (run (toFailure pre e 0)).
Proof.
  unfold toFailure. cbn [repeat].
  change (pre ++ source (onError e) :: repeat turn k)
    with (pre ++ [source (onError e)] ++ repeat turn k).
  rewrite app_assoc. apply run_app.
Qed.

(** A run of the executor keeps the flags of the stream and the buffer. *)
Lemma await_vars g :
  streamError (vars (fst (await g))) = streamError (vars g) /\
  streamEnd (vars (fst (await g))) = streamEnd (vars g) /\
  buffer (vars (fst (await g))) = buffer (vars g).
Proof.
  unfold await, nextRowsQueue.
  destruct (streamError (vars g)) eqn:He,
    (0 <? length (rowsQueue (vars g))), (streamEnd (vars g)) eqn:Hd;
    cbn; auto.
Qed.

Lemma resume_vars g :
  streamError (vars (fst (resume g))) = streamError (vars g) /\
  streamEnd (vars (fst (resume g))) = streamEnd (vars g) /\
  buffer (vars (fst (resume g))) = buffer (vars g).
Proof.
  unfold resume.
  destruct (at' g) as [| |[|row rows] [|b queue]|c];
    try apply await_vars; try (cbn; auto; fail).
  - destruct (negb (breakLoop (vars g)) && negb (isSome (streamError (vars g))));
      [apply await_vars | cbn; auto].
  - destruct (negb (skip g)); cbn; auto.
  - destruct (negb (skip g)); cbn; auto.
Qed.

Lemma await_tracks all g out :
  pendingRows (at' g) = [] ->
  tracks all g out -> tracks all (fst (await g)) (out ++ snd (await g)).
Proof.
  intros Hp (deq & done & Hall & Hrows & Hout & Hskip).
  rewrite Hp, app_nil_r in Hrows.
  unfold await, nextRowsQueue.
  destruct (streamError (vars g)); cbn [fst snd].
  - exists deq, done. cbn. rewrite !app_nil_r. auto.
  - destruct (0 <? length (rowsQueue (vars g))); cbn [fst snd].
    + exists (deq ++ rowsQueue (vars g)), done. cbn.
      rewrite !app_nil_r, rowsOf_app, Hrows. auto.
    + destruct (streamEnd (vars g)); cbn [negb fst snd];
        exists deq, done; unfold catchLoop, afterLoop; cbn;
        destruct (streamError (vars g)); cbn; rewrite !app_nil_r; auto.
Qed.

Lemma resume_tracks all g out :
  tracks all g out -> tracks all (fst (resume g)) (out ++ snd (resume g)).
Proof.
  intros H. unfold resume.
  destruct (at' g) as [| |rows queue|c] eqn:Hat.
  - destruct (negb (breakLoop (vars g)) && negb (isSome (streamError (vars g)))).
    + apply await_tracks; [rewrite Hat; reflexivity | exact H].
    + destruct H as (deq & done & Hall & Hrows & Hout & Hskip).
      rewrite Hat in Hrows. cbn in Hrows. rewrite app_nil_r in Hrows.
      exists deq, done. unfold afterLoop. cbn.
      destruct (streamError (vars g)); cbn; rewrite !app_nil_r; auto.
  - apply await_tracks; [rewrite Hat; reflexivity | exact H].
  - destruct H as (deq & done & Hall & Hrows & Hout & Hskip).
    rewrite Hat in Hrows. cbn [pendingRows] in Hrows.
    destruct rows as [|row rows].
    + destruct queue as [|b queue]; exists deq, done;
        unfold rowsOf in *; cbn in *; rewrite ?app_nil_r in *; auto.
    + rewrite Hskip. destruct done as [|d done]; cbn [isNil negb fst snd].
      * exists deq, [row]. cbn. repeat split; auto. subst out. reflexivity.
      * exists deq, ((d :: done) ++ [row]). cbn [vars at' skip pendingRows].
        repeat split; auto.
        -- rewrite Hrows, <- !app_assoc. reflexivity.
        -- subst out. cbn. rewrite map_app. reflexivity.
  - rewrite app_nil_r. exact H.
Qed.

Lemma run_consistent sched : consistent sched (run sched).
Proof.
  induction sched as [|a sched IH] using rev_ind.
  - split; [| reflexivity]. exists [], []. cbn. auto.
  - unfold consistent in *. rewrite run_snoc, dataOf_app.
    destruct IH as (Ht & Hb).
    destruct a as [[chunk| |err]|]; cbn [dataOf step fst snd vars skip on].
    + unfold batches. rewrite assemble_snoc.
      destruct (read_frame (vars (fst (run sched))) (assemble (dataOf sched))
                  chunk (eq_sym Hb)) as (Hb' & new & Hq1 & Hq2).
      split; [| symmetry; exact Hb'].
      destruct Ht as (deq & done & Hall & Hrows & Hout & Hskip).
      exists deq, done. cbn [vars at' skip].
      rewrite Hq2, Hq1. fold (batches (dataOf sched)).
      rewrite Hall, app_assoc. auto.
    + rewrite app_nil_r. split; [| exact Hb].
      destruct Ht as (deq & done & Hall & Hrows & Hout & Hskip).
      exists deq, done. cbn. auto.
    + rewrite app_nil_r. split; [| exact Hb].
      destruct Ht as (deq & done & Hall & Hrows & Hout & Hskip).
      exists deq, done. cbn. auto.
    + rewrite app_nil_r. split.
      * apply resume_tracks. exact Ht.
      * rewrite Hb. symmetry. apply resume_vars.
Qed.

(** *** While the stream is delivering data *)

Lemma resume_live g : live g -> live (fst (resume g)).
Proof.
  unfold live, resume, await, nextRowsQueue. intros (He & Hd & Hb & Hf).
  rewrite He, Hd, Hb.
  destruct (at' g) as [| |[|row rows] [|b queue]|c];
    try destruct (0 <? length (rowsQueue (vars g)));
    try destruct (negb (skip g)); cbn;
    rewrite ?andb_false_r; auto; discriminate.
Qed.

Lemma run_live pre : dataOnly pre = true -> live (fst (run pre)).
Proof.
  induction pre as [|a pre IH] using rev_ind; intros H.
  - cbv. auto.
  - unfold dataOnly in H. rewrite forallb_app in H.
    apply andb_prop in H as [Hpre Ha]. specialize (IH Hpre).
    rewrite run_snoc. destruct a as [[chunk| |err]|]; cbn in Ha; try discriminate.
    + destruct IH as (He & Hd & Hb & Hf).
      destruct (read_flags (vars (fst (run pre))) chunk) as (He' & Hd' & Hb').
      unfold live. cbn. rewrite He', Hd', Hb'. auto.
    + cbn [step fst]. apply resume_live. exact IH.
Qed.

(** *** Once the generator is done *)

Lemma turns_finished k g out :
  isFinished (at' g) = true ->
  fold_left step (repeat turn k) (g, out) = (g, out).
Proof.
  intros H. induction k as [|k IH]; [reflexivity |].
  cbn [repeat fold_left step fst snd]. unfold resume.
  destruct (at' g); try discriminate. cbn [fst snd].
  rewrite app_nil_r. exact IH.
Qed.

(** *** The generator gets done *)

Lemma headTurns_pos s : 1 <= headTurns s.
Proof.
  unfold headTurns. destruct (isSome (streamError s)); [lia |].
  destruct (rowsQueue s); lia.
Qed.

Lemma turnsLeft_zero g : turnsLeft g = 0 -> isFinished (at' g) = true.
Proof.
  unfold turnsLeft. pose proof (headTurns_pos (vars g)).
  destruct (at' g); cbn; intros; auto; lia.
Qed.

Lemma await_turnsLeft g :
  streamEnd (vars g) = true \/ isSome (streamError (vars g)) = true ->
  turnsLeft (fst (await g)) < headTurns (vars g).
Proof.
  intros Hc. unfold await, nextRowsQueue, turnsLeft, headTurns.
  destruct (streamError (vars g)) eqn:He; cbn [fst snd isSome catchLoop at'].
  - lia.
  - destruct (rowsQueue (vars g)) as [|b queue] eqn:Hq;
      cbn [length Nat.ltb Nat.leb fst snd at' vars].
    + destruct Hc as [Hd | Hc]; [| discriminate]. rewrite Hd.
      cbn [negb snd fst at' catchLoop]. unfold afterLoop. rewrite He. cbn. lia.
    + cbn [streamError isSome rowsQueue length]. lia.
Qed.

Lemma resume_turnsLeft g :
  streamEnd (vars g) = true \/ isSome (streamError (vars g)) = true ->
  isFinished (at' g) = false ->
  turnsLeft (fst (resume g)) < turnsLeft g.
Proof.
  intros Hc Hf. pose proof (await_turnsLeft g Hc) as Ha.
  pose proof (headTurns_pos (vars g)) as Hh.
  unfold resume. unfold turnsLeft at 2.
  destruct (at' g) as [| |[|row rows] [|b queue]|c]; try discriminate.
  - destruct (negb (breakLoop (vars g)) && negb (isSome (streamError (vars g))));
      [exact Ha |].
    unfold turnsLeft, afterLoop. cbn. destruct (streamError (vars g)); cbn; lia.
  - exact Ha.
  - unfold turnsLeft. cbn. lia.
  - unfold turnsLeft, passes, rowsOf. cbn [fst at' vars map concat length].
    rewrite length_app. fold (rowsOf queue). lia.
  - destruct (negb (skip g)); unfold turnsLeft; cbn; lia.
  - destruct (negb (skip g)); unfold turnsLeft; cbn; lia.
Qed.

Lemma turns_reach n g out :
  streamEnd (vars g) = true \/ isSome (streamError (vars g)) = true ->
  turnsLeft g <= n ->
  isFinished (at' (fst (fold_left step (repeat turn n) (g, out)))) = true.
Proof.
  revert g out. induction n as [|n IH]; intros g out Hc Hn.
  - cbn. apply turnsLeft_zero. lia.
  - destruct (isFinished (at' g)) eqn:Hf.
    + rewrite turns_finished by exact Hf. exact Hf.
    + cbn [repeat fold_left step fst snd]. apply IH.
      * destruct (resume_vars g) as (He & Hd & _). rewrite He, Hd. exact Hc.
      * pose proof (resume_turnsLeft g Hc Hf). lia.
Qed.

(** *** After the end of the stream *)

Lemma await_ended g :
  ended g -> breakLoop (vars g) = false -> ended (fst (await g)).
Proof.
  unfold ended, await, nextRowsQueue. intros (He & Hd & Hb & Hf) Hbl.
  rewrite He, Hd.
  destruct (rowsQueue (vars g)) as [|b queue] eqn:Hq;
    cbn [length Nat.ltb Nat.leb negb fst snd vars at' catchLoop
           streamError streamEnd breakLoop rowsQueue].
  - unfold afterLoop. rewrite He.
    repeat split; auto; congruence.
  - repeat split; auto; discriminate.
Qed.

Lemma resume_ended g : ended g -> ended (fst (resume g)).
Proof.
  intros H. pose proof H as (He & Hd & Hb & Hf). unfold resume.
  destruct (at' g) as [| |[|row rows] [|b queue]|c] eqn:Hat.
  - rewrite He. cbn [isSome negb]. rewrite andb_true_r.
    destruct (breakLoop (vars g)) eqn:Hbl; cbn [negb].
    + unfold ended, afterLoop. cbn [fst vars at']. rewrite He.
      repeat split; auto; try congruence.
    + apply await_ended; assumption.
  - destruct (breakLoop (vars g)) eqn:Hbl.
    + unfold ended, await, nextRowsQueue. rewrite He, (Hb eq_refl), Hd.
      cbn. unfold afterLoop. rewrite He, Hd. cbn.
      repeat split; auto; try congruence.
    + apply await_ended; assumption.
  - unfold ended. cbn. repeat split; auto; discriminate.
  - unfold ended. cbn. repeat split; auto; discriminate.
  - destruct (negb (skip g)); unfold ended; cbn; repeat split; auto; discriminate.
  - destruct (negb (skip g)); unfold ended; cbn; repeat split; auto; discriminate.
  - cbn. exact H.
Qed.

Lemma run_ended pre k : dataOnly pre = true -> ended (fst (run (toEnd pre k))).
Proof.
  intros Hpre. induction k as [|k IH].
  - unfold toEnd. cbn [repeat]. rewrite run_snoc.
    destruct (run_live pre Hpre) as (He & Hd & Hb & Hf).
    unfold ended. cbn.
    split; [exact He |]. split; [reflexivity |].
    split; [intros Hbl; congruence |].
    intros c0 Hc. rewrite Hc in Hf. discriminate.
  - rewrite toEnd_S, run_snoc. cbn [step fst]. apply resume_ended. exact IH.
Qed.

(** Whenever the generator is done after the end of the stream, it has
    returned and every line after the first has been yielded. *)
Lemma toEnd_result pre k :
  dataOnly pre = true ->
  isFinished (snd (cidTableStream (toEnd pre k))) = true ->
  cidTableStream (toEnd pre k) =
  (map Factory (referenceRows (concat (dataOf pre))), finished returned).
Proof.
  intros Hpre Hfin. unfold cidTableStream in *. cbn [snd] in Hfin.
  destruct (run_ended pre k Hpre) as (_ & _ & _ & Hc).
  destruct (run_consistent (toEnd pre k))
    as ((deq & done & Hall & Hrows & Hout & _) & _).
  destruct (at' (fst (run (toEnd pre k)))) as [| | |c] eqn:Hat; try discriminate.
  destruct (Hc c eq_refl) as (-> & Hq).
  rewrite Hq, app_nil_r, dataOf_toEnd in Hall.
  cbn [pendingRows] in Hrows. rewrite app_nil_r in Hrows.
  rewrite Hout, <- Hrows, <- Hall. unfold referenceRows.
  rewrite completeLines_batches. reflexivity.
Qed.

Lemma toEnd_finishes pre k :
  dataOnly pre = true ->
  turnsLeft (fst (run (toEnd pre 0))) <= k ->
  isFinished (snd (cidTableStream (toEnd pre k))) = true.
Proof.
  intros Hpre Hk. unfold cidTableStream. cbn [snd]. rewrite run_toEnd.
  destruct (run_ended pre 0 Hpre) as (_ & Hd & _).
  destruct (run (toEnd pre 0)) as [g out]. apply turns_reach; auto.
Qed.

Lemma toEnd_completes pre :
  dataOnly pre = true ->
  completes pre
    (map Factory (referenceRows (concat (dataOf pre))), finished returned).
Proof.
  intros Hpre. split.
  - exists (turnsLeft (fst (run (toEnd pre 0)))). intros k Hk.
    apply toEnd_result; [exact Hpre |]. apply toEnd_finishes; assumption.
  - intros k. apply toEnd_result. exact Hpre.
Qed.

(** *** After a failure of the stream *)

Lemma resume_failed e queue g : failed e queue g -> failed e queue (fst (resume g)).
Proof.
  intros H. pose proof H as (He & Hq & Hf).
  unfold resume, await, nextRowsQueue, catchLoop, afterLoop.
  destruct (at' g) as [| |[|row rows] [|b q]|c] eqn:Hat; rewrite ?He;
    try destruct (negb (skip g));
    try destruct (negb (breakLoop (vars g)));
    unfold failed; cbn; rewrite ?He, ?Hat; repeat split; auto;
    try discriminate; try congruence.
Qed.

Lemma run_failed pre e k :
  isFinished (at' (fst (run pre))) = false ->
  failed e (rowsQueue (vars (fst (run pre)))) (fst (run (toFailure pre e k))).
Proof.
  intros Hf. induction k as [|k IH].
  - unfold toFailure. cbn [repeat]. rewrite run_snoc.
    unfold failed. cbn. repeat split; auto.
    intros ? Hc. rewrite Hc in Hf. discriminate.
  - rewrite toFailure_S, run_snoc. cbn [step fst]. apply resume_failed. exact IH.
Qed.

(** Whenever the generator is done after the failure, it has thrown the
    error and has yielded the rows of the batches it had taken. *)
Lemma toFailure_result pre e k deq :
  isFinished (at' (fst (run pre))) = false ->
  batches (dataOf pre) = deq ++ rowsQueue (vars (fst (run pre))) ->
  isFinished (snd (cidTableStream (toFailure pre e k))) = true ->
  cidTableStream (toFailure pre e k) =
  (map Factory (tl (rowsOf deq)), finished (thrown (streamFailure e))).
Proof.
  intros Hrun Hdeq Hfin. unfold cidTableStream in *. cbn [snd] in Hfin.
  destruct (run_failed pre e k Hrun) as (_ & Hq & Hc).
  destruct (run_consistent (toFailure pre e k))
    as ((deq' & done & Hall & Hrows & Hout & _) & _).
  destruct (at' (fst (run (toFailure pre e k)))) as [| | |c] eqn:Hat;
    try discriminate.
  rewrite (Hc c eq_refl).
  rewrite Hq, dataOf_toFailure, Hdeq in Hall. apply app_inv_tail in Hall.
  cbn [pendingRows] in Hrows. rewrite app_nil_r in Hrows.
  rewrite Hout, <- Hrows, Hall. reflexivity.
Qed.

Lemma toFailure_finishes pre e k :
  turnsLeft (fst (run (toFailure pre e 0))) <= k ->
  isFinished (snd (cidTableStream (toFailure pre e k))) = true.
Proof.
  intros Hk. unfold cidTableStream. cbn [snd]. rewrite run_toFailure.
  assert (He : isSome (streamError (vars (fst (run (toFailure pre e 0))))) = true).
  { unfold toFailure. cbn [repeat]. rewrite run_snoc. reflexivity. }
  destruct (run (toFailure pre e 0)) as [g out]. apply turns_reach; auto.
Qed.

Lemma toFailure_fails pre e deq :
  isFinished (at' (fst (run pre))) = false ->
  batches (dataOf pre) = deq ++ rowsQueue (vars (fst (run pre))) ->
  fails pre e
    (map Factory (tl (rowsOf deq)), finished (thrown (streamFailure e))).
Proof.
  intros Hrun Hdeq. split.
  - exists (turnsLeft (fst (run (toFailure pre e 0)))). intros k Hk.
    apply toFailure_result; auto. apply toFailure_finishes. exact Hk.
  - intros k. apply toFailure_result; auto.
Qed.

(** *** The private symbol stays private *)

Lemma resume_sentinel g :
  sentinelThrown (at' g) = false -> sentinelThrown (at' (fst (resume g))) = false.
Proof.
  unfold resume, await, nextRowsQueue, catchLoop, afterLoop. intros H.
  destruct (at' g) as [| |[|row rows] [|b q]|c] eqn:Hat;
    try destruct (negb (skip g));
    destruct (streamError (vars g)) eqn:He, (breakLoop (vars g)),
      (0 <? length (rowsQueue (vars g))), (streamEnd (vars g));
    cbn; rewrite ?He, ?Hat; auto.
Qed.

Lemma run_sentinel sched : sentinelThrown (at' (fst (run sched))) = false.
Proof.
  induction sched as [|a sched IH] using rev_ind; [reflexivity |].
  rewrite run_snoc. destruct a as [ev|]; cbn [step fst at'].
  - exact IH.
  - apply resume_sentinel. exact IH.
Qed.

(** *** Lines of a file given by its lines *)

Lemma rowsOf_clean lines :
  forallb (fun l => negb (includes l LINEBRK)) lines = true ->
  rowsOf lines = lines.
Proof.
  unfold rowsOf. induction lines as [|l lines IH]; [reflexivity |].
  cbn [forallb map concat]. intros H. apply andb_prop in H as [Hl Hrest].
  apply negb_true_iff in Hl. rewrite (split_no_LINEBRK l Hl), IH by exact Hrest.
  reflexivity.
Qed.

(** *** Two calls *)

Lemma length_put st env fr : length (put st env fr) = length st.
Proof.
  revert env. induction st as [|x st IH]; intros [|env]; cbn; auto.
Qed.

Lemma lookup_put st env fr : env < length st -> lookup (put st env fr) env = fr.
Proof.
  unfold lookup. revert env.
  induction st as [|x st IH]; intros [|env] H; cbn in *; try lia; auto.
  apply IH. lia.
Qed.

Lemma lookup_put_other st env env' fr :
  env' <> env -> lookup (put st env fr) env' = lookup st env'.
Proof.
  unfold lookup. revert env env'.
  induction st as [|x st IH]; intros [|env] [|env'] H; cbn; auto; try congruence.
Qed.

Lemma put_put st env fr fr' : put (put st env fr) env fr' = put st env fr'.
Proof.
  revert env. induction st as [|x st IH]; intros [|env]; cbn; auto.
  f_equal. apply IH.
Qed.

Lemma put_lookup st env : put st env (lookup st env) = st.
Proof.
  unfold lookup. revert env.
  induction st as [|x st IH]; intros [|env]; cbn; auto.
  f_equal. apply IH.
Qed.

Ltac store_simpl H :=
  repeat first
    [ rewrite put_put
    | rewrite lookup_put by (rewrite ?length_put; exact H) ].

Ltac frame_simpl H Hfr :=
  repeat (progress (cbn; rewrite ?Hfr; store_simpl H)).

(** The code closed over a record does to it what the function does to the
    variables it is given, and leaves the other records alone. *)
Lemma readAt_frame env chunk st :
  env < length st ->
  readAt env chunk st =
  (tt, put st env (onVars (fun s => read s chunk) (lookup st env))).
Proof.
  intros H.
  destruct (lookup st env) as [[[se sn b q bl] sk c] out] eqn:Hfr.
  unfold readAt, read, onVars, bind, load, assign, ret. frame_simpl H Hfr.
  destruct (lastIndexOf (b ++ chunk) LINEBRK >=? 0)%Z; frame_simpl H Hfr;
    reflexivity.
Qed.

Lemma onAt_frame env ev st :
  env < length st ->
  onAt env ev st = (tt, put st env (onVars (fun s => on s ev) (lookup st env))).
Proof.
  intros H. destruct ev as [chunk| |err]; cbn [onAt on].
  - apply readAt_frame. exact H.
  - reflexivity.
  - reflexivity.
Qed.

Lemma nextRowsQueueAt_frame env st :
  env < length st ->
  nextRowsQueueAt env st =
  (snd (nextRowsQueue (vars (fst (lookup st env)))),
   put st env
     (onVars (fun s => fst (nextRowsQueue s)) (lookup st env))).
Proof.
  intros H. pose proof (put_lookup st env) as Hsame.
  destruct (lookup st env) as [[[se sn b q bl] sk c] out] eqn:Hfr.
  unfold nextRowsQueueAt, nextRowsQueue, onVars, bind, load, assign, ret.
  frame_simpl H Hfr.
  destruct se as [e|]; frame_simpl H Hfr; [rewrite Hsame; reflexivity |].
  destruct q as [|completeRows q]; frame_simpl H Hfr; [| reflexivity].
  destruct sn; frame_simpl H Hfr; rewrite Hsame; reflexivity.
Qed.

Lemma afterLoopAt_frame env st :
  afterLoopAt env st =
  (tt, put st env
         (assignIn atVar (afterLoop (vars (fst (lookup st env))))
            (lookup st env))).
Proof.
  unfold afterLoopAt, afterLoop, bind, load, assign. cbn.
  destruct (streamError (vars (fst (lookup st env)))); reflexivity.
Qed.

Lemma catchLoopAt_frame env reason st :
  catchLoopAt env reason st =
  (tt, put st env
         (assignIn atVar (catchLoop (vars (fst (lookup st env))) reason)
            (lookup st env))).
Proof.
  destruct reason; [apply afterLoopAt_frame | reflexivity].
Qed.

Lemma awaitAt_frame env st :
  env < length st ->
  awaitAt env st =
  (tt, put st env (fst (await (fst (lookup st env))), snd (lookup st env))).
Proof.
  intros H. unfold awaitAt, bind. rewrite (nextRowsQueueAt_frame env st H).
  cbn [fst snd]. unfold await.
  destruct (lookup st env) as [g out]. cbn [fst snd].
  destruct (snd (nextRowsQueue (vars g))) as [queue|reason|];
    rewrite ?catchLoopAt_frame; unfold assign;
    store_simpl H; reflexivity.
Qed.

Lemma await_silent g : snd (await g) = [].
Proof.
  unfold await. destruct (snd (nextRowsQueue (vars g))); reflexivity.
Qed.

Lemma resumeAt_frame env st :
  env < length st ->
  resumeAt env st = (tt, put st env (step (lookup st env) turn)).
Proof.
  intros H.
  pose proof (put_lookup st env) as Hsame.
  pose proof (awaitAt_frame env st H) as Hawait.
  pose proof (afterLoopAt_frame env st) as Hafter.
  destruct (lookup st env) as [[s sk c] out] eqn:Hfr.
  unfold resumeAt, step, resume, bind, load, assign, ret.
  cbn [fst snd vars skip at' valueIn atVar] in *. rewrite Hfr.
  cbn [fst snd vars skip at' valueIn atVar].
  destruct c as [| |[|row rows] [|completeRows queue]|c0].
  - rewrite Hfr. cbn [valueIn breakLoopVar streamErrorVar fst snd vars].
    destruct (negb (breakLoop s) && negb (isSome (streamError s))).
    + rewrite Hawait, await_silent, app_nil_r. reflexivity.
    + rewrite Hafter. cbn. rewrite app_nil_r. reflexivity.
  - rewrite Hawait, await_silent, app_nil_r. reflexivity.
  - rewrite Hfr. cbn. rewrite app_nil_r. reflexivity.
  - rewrite Hfr. cbn. rewrite app_nil_r. reflexivity.
  - rewrite Hfr. cbn [valueIn skipVar fst skip].
    destruct (negb sk); frame_simpl H Hfr; rewrite ?app_nil_r; reflexivity.
  - rewrite Hfr. cbn [valueIn skipVar fst skip].
    destruct (negb sk); frame_simpl H Hfr; rewrite ?app_nil_r; reflexivity.
  - cbn. rewrite app_nil_r, Hsame. reflexivity.
Qed.

Lemma stepAt_frame env a st :
  env < length st ->
  stepAt env a st = (tt, put st env (step (lookup st env) a)).
Proof.
  intros H. destruct a as [ev|]; cbn [stepAt].
  - rewrite (onAt_frame env ev st H). reflexivity.
  - apply resumeAt_frame. exact H.
Qed.

Lemma twoCalls_frames st0 :
  twoCalls st0 =
  ((length st0, S (length st0)), st0 ++ [(start, []); (start, [])]).
Proof.
  unfold twoCalls, bind, invoke, ret. cbn [fst snd].
  rewrite length_app, <- app_assoc. cbn [length app].
  rewrite Nat.add_1_r. reflexivity.
Qed.

Lemma run2_snoc st0 sched ca :
  run2 st0 (sched ++ [ca]) = step2 (fst (twoCalls st0)) (run2 st0 sched) ca.
Proof. unfold run2. rewrite fold_left_app. reflexivity. Qed.

Lemma actionsOf_snoc c sched ca :
  actionsOf c (sched ++ [ca]) =
  actionsOf c sched ++ (if sameCall c (fst ca) then [snd ca] else []).
Proof.
  unfold actionsOf. rewrite filter_app, map_app. cbn [filter].
  destruct (sameCall c (fst ca)); reflexivity.
Qed.

(** Under every schedule of the two calls the store has the records it had
    and the two new ones; the record of each call is the state the call
    reaches when run alone on its own actions, and the earlier records are
    as they were. *)
Lemma run2_independent st0 sched :
  length (run2 st0 sched) = length st0 + 2 /\
  (forall c,
      lookup (run2 st0 sched) (envOf (fst (twoCalls st0)) c) =
      run (actionsOf c sched)) /\
  (forall env, env < length st0 -> lookup (run2 st0 sched) env = lookup st0 env).
Proof.
  induction sched as [|ca sched IH] using rev_ind.
  - unfold run2. cbn [fold_left]. rewrite twoCalls_frames. cbn [fst snd].
    split; [rewrite length_app; reflexivity |]. split.
    + intros c. unfold lookup.
      destruct c; cbn [envOf fst snd actionsOf filter map];
        rewrite app_nth2 by lia.
      * rewrite Nat.sub_diag. reflexivity.
      * replace (S (length st0) - length st0) with 1 by lia. reflexivity.
    + intros env Henv. unfold lookup. apply app_nth1. exact Henv.
  - destruct IH as (Hlen & Hown & Hold).
    rewrite run2_snoc. unfold step2.
    assert (Hin : envOf (fst (twoCalls st0)) (fst ca) < length (run2 st0 sched)).
    { rewrite Hlen, twoCalls_frames. destruct (fst ca); cbn; lia. }
    rewrite (stepAt_frame _ (snd ca) _ Hin). cbn [snd].
    split; [rewrite length_put; exact Hlen |]. split.
    + intros c. rewrite actionsOf_snoc.
      destruct (sameCall c (fst ca)) eqn:Hc.
      * assert (c = fst ca) as -> by (destruct c, (fst ca); congruence || discriminate).
        rewrite lookup_put by exact Hin. rewrite Hown, run_snoc. reflexivity.
      * rewrite app_nil_r, lookup_put_other; [apply Hown |].
        rewrite twoCalls_frames.
        destruct c, (fst ca); cbn in *; try discriminate; lia.
    + intros env Henv. rewrite lookup_put_other; [apply Hold; exact Henv |].
      rewrite twoCalls_frames. destruct (fst ca); cbn; lia.
Qed.

(** ** The properties of the specification *)

(** C1: whatever the chunking of a content and whatever the interleaving of
    stream callbacks and generator steps, reading to the end of the stream
    completes, and the rows yielded are the records of the reference split
    of the whole content on the terminator; the content delivered as a
    single chunk completes with the same rows. *)
Theorem chunking_independent (content : str) (chunks : list str)
    (pre : list action) :
  dataOnly pre = true ->
  dataOf pre = chunks ->
  concat chunks = content ->
  completes pre (map Factory (referenceRows content), finished returned) /\
  completes [source (onData content)]
    (map Factory (referenceRows content), finished returned).
Proof.
  intros Hpre Hchunks Hcontent. subst chunks content. split.
  - apply toEnd_completes. exact Hpre.
  - pose proof (toEnd_completes [source (onData (concat (dataOf pre)))] eq_refl)
      as H.
    cbn [dataOf concat] in H. rewrite app_nil_r in H. exact H.
Qed.

(** C2: under every schedule the rows yielded so far are the records of an
    initial segment of the file's complete lines with the first line left
    out, so the header is never yielded; and a reading to the end of the
    stream completes with the record of every complete line after the
    first. *)
Theorem header_never_yielded :
  (forall sched, exists n,
      fst (cidTableStream sched) =
      map Factory (tl (firstn n (completeLines (concat (dataOf sched)))))) /\
  (forall pre,
      dataOnly pre = true ->
      completes pre
        (map Factory (tl (completeLines (concat (dataOf pre)))),
         finished returned)).
Proof.
  split.
  - intros sched.
    destruct (run_consistent sched)
      as ((deq & done & Hall & Hrows & Hout & _) & _).
    exists (length done). unfold cidTableStream. cbn [fst].
    rewrite Hout, completeLines_batches, Hall, rowsOf_app, Hrows.
    rewrite <- !app_assoc, firstn_app, Nat.sub_diag, firstn_all, firstn_O.
    rewrite app_nil_r. reflexivity.
  - intros pre Hpre. apply toEnd_completes. exact Hpre.
Qed.

(** C3: the ['data'] callback appends the chunk; when the combined buffer is
    [pre ++ LINEBRK ++ rest] with no terminator in [rest] (so this is the
    last occurrence) it pushes [pre] as one batch and keeps exactly [rest];
    when the combined buffer holds no terminator it pushes nothing and keeps
    the combined buffer. *)
Theorem read_assembly_step (s : reading) (chunk : str) :
  (exists pre rest,
      buffer s ++ chunk = pre ++ LINEBRK ++ rest /\
      ~ occursIn LINEBRK rest /\
      read s chunk =
      mkReading (streamError s) (streamEnd s) rest (rowsQueue s ++ [pre])
        (breakLoop s)) \/
  (~ occursIn LINEBRK (buffer s ++ chunk) /\
   read s chunk =
   mkReading (streamError s) (streamEnd s) (buffer s ++ chunk) (rowsQueue s)
     (breakLoop s)).
Proof.
  destruct (cut_or_absent (buffer s ++ chunk)) as [(pre & rest & Hc & Hr) | H].
  - left. exists pre, rest. repeat split.
    + exact Hc.
    + intros Ho. apply includes_occursIn in Ho. congruence.
    + apply read_found; assumption.
  - right. split.
    + intros Ho. apply includes_occursIn in Ho. congruence.
    + apply read_absent. exact H.
Qed.

(** C4, as the code has it: when the stream fails while the generator is
    still running, the batches pushed so far are those the generator has
    taken followed by those still queued; the generator goes through the
    rows of the batches it has taken, then throws that error and stays
    there.  The batches still queued are dropped.  This includes a failure
    arriving after the last batch was taken. *)
Theorem error_after_batches (pre : list action) (e : E) :
  isFinished (at' (fst (run pre))) = false ->
  (exists deq,
      batches (dataOf pre) = deq ++ rowsQueue (vars (fst (run pre)))) /\
  (forall deq,
      batches (dataOf pre) = deq ++ rowsQueue (vars (fst (run pre))) ->
      fails pre e
        (map Factory (tl (rowsOf deq)), finished (thrown (streamFailure e)))).
Proof.
  intros Hrun. split.
  - destruct (run_consistent pre) as ((deq & done & Hall & _) & _).
    exists deq. exact Hall.
  - intros deq Hdeq. apply toFailure_fails; assumption.
Qed.

(** C5: for a file made of terminated lines followed by a remainder without
    terminator, reading to the end completes with the records of the
    terminated lines after the header; the remainder is not yielded and the
    generator returns. *)
Theorem unterminated_last_line_dropped (lines : list str) (rest : str)
    (pre : list action) :
  forallb (fun l => negb (includes l LINEBRK)) lines = true ->
  includes rest LINEBRK = false ->
  dataOnly pre = true ->
  concat (dataOf pre) = unsplit lines rest ->
  completes pre (map Factory (tl lines), finished returned).
Proof.
  intros Hlines Hrest Hpre Hcontent.
  pose proof (toEnd_completes pre Hpre) as H.
  rewrite Hcontent in H. unfold referenceRows in H.
  rewrite (completeLines_unsplit lines rest Hrest) in H.
  rewrite (rowsOf_clean lines Hlines) in H. exact H.
Qed.

(** C6: under no schedule does the generator complete by throwing
    [SKIPERR]; and reading an empty file completes by returning, with no
    row. *)
Theorem sentinel_never_observable :
  (forall sched, sentinelThrown (snd (cidTableStream sched)) = false) /\
  (forall pre,
      dataOnly pre = true ->
      concat (dataOf pre) = [] ->
      completes pre ([], finished returned)).
Proof.
  split.
  - intros sched. apply run_sentinel.
  - intros pre Hpre Hempty. pose proof (toEnd_completes pre Hpre) as H.
    rewrite Hempty in H. exact H.
Qed.

(** C7: after every execution of the ['data'] callback, from any state, the
    buffer holds no terminator and nothing fed is lost: the batches and the
    buffer spell what they spelt before followed by the chunk.  Hence the
    buffer is free of terminators after any sequence of chunks and under
    every schedule of the generator. *)
Theorem buffer_never_holds_terminator :
  (forall s chunk,
      includes (buffer (read s chunk)) LINEBRK = false /\
      unsplit (rowsQueue (read s chunk)) (buffer (read s chunk)) =
      unsplit (rowsQueue s) (buffer s) ++ chunk) /\
  (forall chunks, includes (buffer (assemble chunks)) LINEBRK = false) /\
  (forall sched, includes (buffer (vars (fst (run sched)))) LINEBRK = false).
Proof.
  repeat split.
  - apply read_buffer_clean.
  - apply read_unsplit.
  - apply assemble_buffer_clean.
  - intros sched. destruct (run_consistent sched) as (_ & Hb).
    rewrite <- Hb. apply assemble_buffer_clean.
Qed.

(** C8: two calls of [cidTableStream] are given two different records, and
    under every interleaving of their callbacks and generator steps the
    record of each call is the state the call reaches when run alone on its
    own actions, while the records that were in the store before are left
    as they were: no call writes into the state of another.  When the
    streams of the two calls deliver the same content to the end, in
    whatever chunks, and each generator is given the steps it needs, both
    calls return, and both have yielded the records of the reference rows
    of that content, in order. *)
Theorem independent_calls :
  (forall st0 sched,
      fst (fst (twoCalls st0)) <> snd (fst (twoCalls st0)) /\
      (forall c,
          lookup (run2 st0 sched) (envOf (fst (twoCalls st0)) c) =
          run (actionsOf c sched)) /\
      (forall env,
          env < length st0 -> lookup (run2 st0 sched) env = lookup st0 env)) /\
  (forall preA preB,
      dataOnly preA = true -> dataOnly preB = true ->
      concat (dataOf preA) = concat (dataOf preB) ->
      forall st0 sched kA kB,
        actionsOf callA sched = toEnd preA kA ->
        actionsOf callB sched = toEnd preB kB ->
        stepsToEnd preA <= kA -> stepsToEnd preB <= kB ->
        cidTableStream2 st0 sched callA =
          (map Factory (referenceRows (concat (dataOf preA))),
           finished returned) /\
        cidTableStream2 st0 sched callB =
          (map Factory (referenceRows (concat (dataOf preA))),
           finished returned)).
Proof.
  split.
  - intros st0 sched. split.
    + rewrite twoCalls_frames. cbn. lia.
    + destruct (run2_independent st0 sched) as (_ & Hown & Hold).
      split; assumption.
  - intros preA preB HpA HpB Hsame st0 sched kA kB HA HB HkA HkB.
    destruct (run2_independent st0 sched) as (_ & Hown & _).
    unfold cidTableStream2. cbv zeta. rewrite !Hown, HA, HB. split.
    + apply (toEnd_result preA kA HpA). apply toEnd_finishes; assumption.
    + rewrite Hsame. apply (toEnd_result preB kB HpB).
      apply toEnd_finishes; assumption.
Qed.

(** ** Further properties of the reader *)

Lemma resume_returned g :
  (breakLoop (vars g) = true -> streamEnd (vars g) = true) /\
  (at' g = finished returned -> streamEnd (vars g) = true) ->
  (breakLoop (vars (fst (resume g))) = true ->
   streamEnd (vars (fst (resume g))) = true) /\
  (at' (fst (resume g)) = finished returned ->
   streamEnd (vars (fst (resume g))) = true).
Proof.
  unfold resume, await, nextRowsQueue, catchLoop, afterLoop. intros (Hb & Hr).
  destruct (at' g) as [| |[|row rows] [|b q]|c] eqn:Hat;
    try destruct (negb (skip g));
    destruct (streamError (vars g)) eqn:He, (breakLoop (vars g)) eqn:Hbl,
      (0 <? length (rowsQueue (vars g))), (streamEnd (vars g)) eqn:Hd;
    cbn; rewrite ?He, ?Hat, ?Hbl, ?Hd, ?andb_false_r, ?andb_true_r;
    split; intros; auto; try discriminate; try congruence.
Qed.

Lemma run_returned sched :
  (breakLoop (vars (fst (run sched))) = true ->
   streamEnd (vars (fst (run sched))) = true) /\
  (at' (fst (run sched)) = finished returned ->
   streamEnd (vars (fst (run sched))) = true).
Proof.
  induction sched as [|a sched IH] using rev_ind.
  - cbn. split; discriminate.
  - rewrite run_snoc. destruct a as [[chunk| |err]|]; cbn [step fst vars at' on].
    + destruct (read_flags (vars (fst (run sched))) chunk) as (_ & Hd & Hb).
      rewrite Hd, Hb. exact IH.
    + cbn. split; reflexivity.
    + cbn. exact IH.
    + apply resume_returned. exact IH.
Qed.

(** X2: the generator never returns normally while the stream is still open:
    whenever it has returned, the ['end'] event has been received. *)
Theorem returns_only_after_end (sched : list action) :
  snd (cidTableStream sched) = finished returned ->
  streamEnd (vars (fst (run sched))) = true.
Proof. unfold cidTableStream. cbn [snd]. apply run_returned. Qed.

(** X3: when no batch is waiting in the queue at the moment the stream fails,
    every row derivable from the batches pushed so far is yielded before the
    error is thrown. *)
Theorem failure_with_empty_queue (pre : list action) (e : E) :
  isFinished (at' (fst (run pre))) = false ->
  rowsQueue (vars (fst (run pre))) = [] ->
  fails pre e
    (derivableRows (dataOf pre), finished (thrown (streamFailure e))).
Proof.
  intros Hrun Hq. unfold derivableRows. apply toFailure_fails; [exact Hrun |].
  rewrite Hq, app_nil_r. reflexivity.
Qed.

Lemma concat_terminated sep ps :
  ps <> [] -> concat (map (fun l => l ++ sep) ps) = join sep ps ++ sep.
Proof.
  induction ps as [|p ps IH]; [congruence |]. intros _.
  destruct ps as [|q qs].
  - cbn. rewrite app_nil_r. reflexivity.
  - cbn [map concat]. cbn [map concat] in IH. rewrite IH by discriminate.
    rewrite join_cons, <- !app_assoc. reflexivity.
Qed.

Lemma terminated_rowsOf bs :
  concat (map (fun l => l ++ LINEBRK) (rowsOf bs)) =
  concat (map (fun b => b ++ LINEBRK) bs).
Proof.
  induction bs as [|b bs IH]; [reflexivity |].
  change (rowsOf (b :: bs)) with (split b LINEBRK ++ rowsOf bs).
  rewrite map_app, concat_app. cbn [map concat]. f_equal; [| exact IH].
  pose proof (join_split b ";"%char [CR; LF]) as Hj. fold LINEBRK in Hj.
  rewrite concat_terminated by apply split_nonempty.
  f_equal. exact Hj.
Qed.

Lemma unsplit_rowsOf bs rest : unsplit (rowsOf bs) rest = unsplit bs rest.
Proof. unfold unsplit. rewrite terminated_rowsOf. reflexivity. Qed.

Lemma batches_length chunks : length (batches chunks) <= length chunks.
Proof.
  unfold batches. induction chunks as [|chunk chunks IH] using rev_ind;
    [cbn; lia |].
  rewrite assemble_snoc, length_app. cbn [length].
  destruct (cut_or_absent (buffer (assemble chunks) ++ chunk))
    as [(pre & rest & Hc & Hr) | H].
  - rewrite (read_found _ _ pre rest Hc Hr). cbn [rowsQueue].
    rewrite length_app. cbn [length]. lia.
  - rewrite (read_absent _ _ H). cbn [rowsQueue]. lia.
Qed.

(** X4: after any sequence of chunks the buffer is exactly the unterminated tail
    of everything fed, the last piece of its split on the terminator; the
    complete lines and that tail spell the content again; and at most one
    batch was pushed per chunk. *)
Theorem buffer_is_unterminated_tail (chunks : list str) :
  buffer (assemble chunks) = last (split (concat chunks) LINEBRK) [] /\
  unsplit (completeLines (concat chunks)) (buffer (assemble chunks)) =
    concat chunks /\
  length (batches chunks) <= length chunks.
Proof.
  split; [| split].
  - rewrite <- (assemble_unsplit chunks).
    rewrite split_unsplit, (split_no_LINEBRK _ (assemble_buffer_clean chunks)).
    rewrite last_last. reflexivity.
  - rewrite completeLines_batches, unsplit_rowsOf. apply assemble_unsplit.
  - apply batches_length.
Qed.

Lemma rowsOf_all_clean bs :
  forallb (fun l => negb (includes l LINEBRK)) (rowsOf bs) = true.
Proof.
  unfold rowsOf. induction bs as [|b bs IH]; [reflexivity |].
  cbn [map concat]. rewrite forallb_app, IH, andb_true_r.
  apply (split_clean b ";"%char [CR; LF]).
Qed.

(** X5: under every schedule, each row yielded is the record of a line that
    holds no terminator. *)
Theorem rows_hold_no_terminator (sched : list action) :
  exists rows,
    fst (cidTableStream sched) = map Factory rows /\
    forallb (fun l => negb (includes l LINEBRK)) rows = true.
Proof.
  destruct (run_consistent sched)
    as ((deq & done & _ & Hrows & Hout & _) & _).
  exists (tl done). split; [exact Hout |].
  pose proof (rowsOf_all_clean deq) as Hclean.
  rewrite Hrows, forallb_app in Hclean. apply andb_prop in Hclean as [Hd _].
  destruct done as [|d done]; [reflexivity |].
  cbn [forallb tl] in *. apply andb_prop in Hd as [_ Hd]. exact Hd.
Qed.

Lemma yielded_prefix sched :
  exists n,
    fst (cidTableStream sched) =
    map Factory (firstn n (tl (completeLines (concat (dataOf sched))))).
Proof.
  destruct (run_consistent sched)
    as ((deq & done & Hall & Hrows & Hout & _) & _).
  exists (pred (length done)). unfold cidTableStream. cbn [fst].
  rewrite Hout, completeLines_batches, Hall, rowsOf_app, Hrows.
  rewrite <- !app_assoc. destruct done as [|d done]; [reflexivity |].
  cbn [tl app length pred].
  rewrite firstn_app, Nat.sub_diag, firstn_all, firstn_O, app_nil_r.
  reflexivity.
Qed.

End TableStream.

Arguments SKIPERR {E}.
Arguments streamFailure {E} err.
Arguments onData {E} chunk.
Arguments onEnd {E}.
Arguments onError {E} err.
Arguments returned {E}.
Arguments thrown {E} reason.
Arguments loopHead {E}.
Arguments awaiting {E}.
Arguments iterating {E} rows queue.
Arguments finished {E} c.
Arguments source {E} ev.
Arguments turn {E}.
Arguments vars {E} g.
Arguments at' {E} g.
Arguments isFinished {E} c.
Arguments run {E T} Factory sched.
Arguments cidTableStream {E T} Factory sched.
Arguments completes {E T} Factory pre result.
Arguments fails {E T} Factory pre e result.
Arguments dataOf {E} sched.
Arguments dataOnly {E} sched.
Arguments toEnd {E} pre k.
Arguments toFailure {E} pre e k.
Arguments derivableRows E {T} Factory chunks.
Arguments paced {E} n chunks.
Arguments slowConsumer {E} e.
Arguments lastBatchTaken {E}.
Arguments alternate {E} a b.
Arguments actionsOf {E} c sched.
Arguments run2 {E T} Factory st0 sched.
Arguments cidTableStream2 {E T} Factory st0 sched c.
Arguments stepsToEnd {E T} Factory pre.

(** ** The default factory and the chapter getters *)

(** C9: with the default factory, reading
    ["h1;h2;h3;\r\nv1;v2;v3;\r\n"] to the end, in whatever chunks, completes
    with the single record whose columns are ["v1"], ["v2"], ["v3"]; the
    factory only splits on [;], leaving the blanks of the fields in place. *)
Theorem scenario_one_row (E : Type) (pre : list (action E)) :
  dataOnly pre = true ->
  concat (dataOf pre) = Scenario.table ->
  completes newCidRecord pre ([Scenario.v123], finished returned) /\
  columns (newCidRecord (lit " a ; b ")) = [lit " a "; lit " b "].
Proof.
  intros Hpre Hcontent. split; [| reflexivity].
  pose proof (toEnd_completes E CidRecord newCidRecord pre Hpre) as H.
  rewrite Hcontent in H. exact H.
Qed.

(** C10: a row with no more fields than the index of the abbreviation
    column makes both [abbreviation] and [roman] throw a [TypeError]: the
    column read is [undefined] and nothing checks the number of fields. *)
Theorem chapter_getters_throw (row : str) :
  length (columns (Cid10Chapter.new row)) <= Cid10Chapter.ABBREVIATION ->
  Cid10Chapter.abbreviation (Cid10Chapter.new row) = TypeError /\
  Cid10Chapter.roman (Cid10Chapter.new row) = TypeError.
Proof.
  intros H. apply nth_error_None in H.
  unfold Cid10Chapter.abbreviation, Cid10Chapter.roman. rewrite H. auto.
Qed.

(** ** The properties at concrete inputs *)

Example split_fields :
  split (lit "a;b;;c") semicolon = [lit "a"; lit "b"; lit ""; lit "c"].
Proof. reflexivity. Qed.

Example split_empty_row : split (lit "") semicolon = [lit ""].
Proof. reflexivity. Qed.

Example lastIndexOf_absent : lastIndexOf (lit "h1;h2") LINEBRK = (-1)%Z.
Proof. reflexivity. Qed.

Example lastIndexOf_table : lastIndexOf Scenario.table LINEBRK = 19%Z.
Proof. reflexivity. Qed.

Example chapter_documented_row :
  Cid10Chapter.roman
    (Cid10Chapter.new (lit "1;A00;B99;Capitulo I - Nome;I.   Abrev")) =
    value (Some (lit "I")) /\
  Cid10Chapter.abbreviation
    (Cid10Chapter.new (lit "1;A00;B99;Capitulo I - Nome;I.   Abrev")) =
    value (lit "Abrev").
Proof. split; reflexivity. Qed.

(** A generator that keeps up with the stream yields the rows of both
    batches before it throws. *)
Example keeping_up_sees_both :
  cidTableStream newCidRecord
    (toFailure (paced 4 [Scenario.firstChunk; Scenario.secondChunk]) tt 2) =
  ([Scenario.r1; Scenario.r2], finished (thrown (streamFailure tt))).
Proof. reflexivity. Qed.

(** A header without terminator: no row. *)
Example header_only :
  cidTableStream (E := unit) newCidRecord (toEnd (paced 2 [lit "h1;h2"]) 1) =
  ([], finished returned).
Proof. reflexivity. Qed.

(** The terminators cut across three chunks, and the table in one chunk. *)
Lemma chunking_independent_witness :
  cidTableStream (E := unit) newCidRecord
    (toEnd (paced 3 Scenario.tableCuts) 3) =
    ([Scenario.v123], finished returned) /\
  cidTableStream (E := unit) newCidRecord
    (toEnd [source (onData Scenario.table)] 7) =
    ([Scenario.v123], finished returned).
Proof.
  destruct (chunking_independent unit CidRecord newCidRecord Scenario.table
              Scenario.tableCuts (paced 3 Scenario.tableCuts)
              eq_refl eq_refl eq_refl) as [[_ Hcuts] [_ Hone]].
  split; [exact (Hcuts 3 eq_refl) | exact (Hone 7 eq_refl)].
Defined.

Lemma header_never_yielded_witness :
  cidTableStream (E := unit) newCidRecord
    (toEnd (paced 3 Scenario.tableCuts) 3) =
  ([Scenario.v123], finished returned).
Proof.
  exact (proj2 (proj2 (header_never_yielded unit CidRecord newCidRecord)
                  (paced 3 Scenario.tableCuts) eq_refl) 3 eq_refl).
Defined.

(** The claim of the specification fails for a slow caller: two batches were
    pushed before the failure, and the row of the first one only is
    yielded. *)
Lemma error_drops_queued_batch :
  cidTableStream newCidRecord (slowConsumer tt) =
    ([Scenario.r1], finished (thrown (streamFailure tt))) /\
  derivableRows unit newCidRecord (dataOf (slowConsumer tt)) =
    [Scenario.r1; Scenario.r2] /\
  fst (cidTableStream newCidRecord (slowConsumer tt)) <>
    derivableRows unit newCidRecord (dataOf (slowConsumer tt)).
Proof.
  split; [reflexivity |]. split; [reflexivity |]. discriminate.
Qed.

(** A failure arriving after the last batch was taken is still thrown. *)
Lemma error_after_batches_witness :
  cidTableStream newCidRecord (toFailure lastBatchTaken tt 2) =
    ([Scenario.r1], finished (thrown (streamFailure tt))).
Proof.
  exact (proj2 (proj2 (error_after_batches unit CidRecord newCidRecord
                         lastBatchTaken tt eq_refl)
                  [lit "h1" ++ LINEBRK ++ lit "r1a;r1b"] eq_refl) 2 eq_refl).
Defined.

Lemma unterminated_last_line_dropped_witness :
  cidTableStream (E := unit) newCidRecord
    (toEnd (paced 3 [Scenario.truncated]) 3) =
  ([Scenario.r1], finished returned).
Proof.
  exact (proj2 (unterminated_last_line_dropped unit CidRecord newCidRecord
                  [lit "h1"; lit "r1a;r1b"] (lit "r2a;r2b")
                  (paced 3 [Scenario.truncated])
                  eq_refl eq_refl eq_refl eq_refl) 3 eq_refl).
Defined.

(** The empty file: no ['data'] event at all. *)
Lemma sentinel_never_observable_witness :
  cidTableStream (E := unit) newCidRecord (toEnd [turn; turn] 1) =
    ([], finished returned).
Proof.
  exact (proj2 (proj2 (sentinel_never_observable unit CidRecord newCidRecord)
                  [turn; turn] eq_refl eq_refl) 1 eq_refl).
Defined.

(** Two calls on the same table, one reading it in three chunks and the
    other in one, their callbacks and steps alternating. *)
Lemma independent_calls_witness :
  cidTableStream2 (E := unit) newCidRecord []
    (alternate (toEnd (paced 3 Scenario.tableCuts) 3)
       (toEnd [source (onData Scenario.table)] 7)) callA =
    ([Scenario.v123], finished returned) /\
  cidTableStream2 (E := unit) newCidRecord []
    (alternate (toEnd (paced 3 Scenario.tableCuts) 3)
       (toEnd [source (onData Scenario.table)] 7)) callB =
    ([Scenario.v123], finished returned).
Proof.
  refine (proj2 (independent_calls unit CidRecord newCidRecord)
            (paced 3 Scenario.tableCuts) [source (onData Scenario.table)]
            eq_refl eq_refl eq_refl []
            (alternate (toEnd (paced 3 Scenario.tableCuts) 3)
               (toEnd [source (onData Scenario.table)] 7))
            3 7 eq_refl eq_refl _ _);
    apply Nat.leb_le; reflexivity.
Defined.

(** The stream of the second call fails at once; the first call, running
    beside it, reads its table to the end. *)
Example failure_stays_with_its_call :
  cidTableStream2 (E := unit) newCidRecord []
    (alternate (toEnd (paced 3 Scenario.tableCuts) 3)
       (toFailure [] tt 2)) callA =
    ([Scenario.v123], finished returned) /\
  cidTableStream2 (E := unit) newCidRecord []
    (alternate (toEnd (paced 3 Scenario.tableCuts) 3)
       (toFailure [] tt 2)) callB =
    ([], finished (thrown (streamFailure tt))).
Proof. split; reflexivity. Qed.

Lemma scenario_one_row_witness :
  cidTableStream (E := unit) newCidRecord
    (toEnd (paced 3 Scenario.tableCuts) 3) =
  ([Scenario.v123], finished returned).
Proof.
  exact (proj2 (proj1 (scenario_one_row unit (paced 3 Scenario.tableCuts)
                         eq_refl eq_refl)) 3 eq_refl).
Defined.

Lemma chapter_getters_throw_witness :
  Cid10Chapter.abbreviation (Cid10Chapter.new (lit "")) = TypeError /\
  Cid10Chapter.roman (Cid10Chapter.new (lit "")) = TypeError.
Proof.
  apply (chapter_getters_throw (lit "")). cbn. repeat constructor.
Defined.

(** ** The table readers and the getters of the records *)

(** The six readers: [cidTableStream] with the class of the table. *)
Definition cid10ChaptersStream {E : Type} (sched : list (action E)) :
    list CidRecord * control E :=
  cidTableStream Cid10Chapter.new sched.

Definition cid10GroupsStream {E : Type} (sched : list (action E)) :
    list CidRecord * control E :=
  cidTableStream Cid10Group.new sched.

Definition cid10CategoriesStream {E : Type} (sched : list (action E)) :
    list CidRecord * control E :=
  cidTableStream Cid10Category.new sched.

Definition cid10SubcategoriesStream {E : Type} (sched : list (action E)) :
    list CidRecord * control E :=
  cidTableStream Cid10Subcategory.new sched.

Definition cidOGroupsStream {E : Type} (sched : list (action E)) :
    list CidRecord * control E :=
  cidTableStream CidOGroup.new sched.

Definition cidOCategoriesStream {E : Type} (sched : list (action E)) :
    list CidRecord * control E :=
  cidTableStream CidOCategory.new sched.

(** Rows and a table used as examples: the rows documented with the
    classes, their accented letters left out. *)
Module Tables.

Definition chapterRow : str :=
  lit "1;A00;B99;" ++ Cid10Chapter.capitulo ++ lit " I - Nome;I.   Abrev".

Definition categoryRow : str :=
  lit "Z00;+;Nome;Z00   Abrev;A00.0*;B00.0+,C00.0,D00.-".

Definition subcategoryRow : str :=
  lit "B000;+;M;N;Nome;B00.0 Abrev;N00.0*;B00.0+,C00.0,D00.-".

(** A chapters file: the header and one row. *)
Definition chapters : str :=
  lit "NUMCAP;CATINIC;CATFIM;DESCRICAO;DESCRABREV" ++ LINEBRK ++
  chapterRow ++ LINEBRK.

End Tables.

(** The getter gave a value. *)
Definition isValue {A : Type} (g : getter A) : bool :=
  match g with value _ => true | TypeError => false end.

(** The number of [;] in a row. *)
Definition semicolons (row : str) : nat := count_occ ascii_dec row ";"%char.

(** *** Character classes *)

Lemma space_not_digit c : Cid10Chapter.isSpace c = true -> isDigit c = false.
Proof.
  unfold Cid10Chapter.isSpace. cbn [existsb]. intros H.
  repeat (apply orb_prop in H as [H | H];
          [apply Ascii.eqb_eq in H; subst c; reflexivity |]).
  discriminate.
Qed.

Lemma space_not_roman c :
  Cid10Chapter.isSpace c = true -> Cid10Chapter.isRoman c = false.
Proof.
  unfold Cid10Chapter.isSpace. cbn [existsb]. intros H.
  repeat (apply orb_prop in H as [H | H];
          [apply Ascii.eqb_eq in H; subst c; reflexivity |]).
  discriminate.
Qed.

Lemma roman_not_space c :
  Cid10Chapter.isRoman c = true -> Cid10Chapter.isSpace c = false.
Proof.
  intros H. destruct (Cid10Chapter.isSpace c) eqn:Hs; [| reflexivity].
  rewrite (space_not_roman c Hs) in H. discriminate.
Qed.

Lemma space_not_dot c : Cid10Chapter.isSpace c = true -> c <> "."%char.
Proof. intros H ->. discriminate. Qed.

(** A run of [q] followed by something [p] stops at is something [p] stops
    at, when no character of [q] is in [p]. *)
Lemma stopsAt_app p q xs ys :
  (forall c, q c = true -> p c = false) ->
  forallb q xs = true -> stopsAt p ys = true -> stopsAt p (xs ++ ys) = true.
Proof.
  intros Hpq Hx Hy. destruct xs as [|x xs]; [exact Hy |].
  cbn in *. apply andb_prop in Hx as [Hx _]. rewrite (Hpq x Hx). reflexivity.
Qed.

Lemma stopsAt_run p q xs ys :
  (forall c, q c = true -> p c = false) ->
  xs <> [] -> forallb q xs = true -> stopsAt p (xs ++ ys) = true.
Proof.
  intros Hpq Hne Hx. destruct xs as [|x xs]; [congruence |].
  cbn [forallb] in Hx. apply andb_prop in Hx as [Hx _].
  cbn [app stopsAt]. rewrite (Hpq x Hx). reflexivity.
Qed.

Lemma forallb_head (q : ascii -> bool) x xs :
  forallb q (x :: xs) = true -> q x = true.
Proof. cbn [forallb]. intros H. apply andb_prop in H. tauto. Qed.

Lemma skipn_exact (a b : str) : skipn (length a) (a ++ b) = b.
Proof. induction a; [reflexivity | exact IHa]. Qed.

(** *** The patterns, with the test of the literal character written out *)

Lemma romanPrefix_eq s :
  Cid10Chapter.romanPrefix s =
  match takeWhile Cid10Chapter.isRoman s, dropWhile Cid10Chapter.isRoman s with
  | (_ :: _) as numeral, d :: rest =>
      if Ascii.eqb d "."%char
      then Some (numeral, dropWhile Cid10Chapter.isSpace rest)
      else None
  | _, _ => None
  end.
Proof.
  unfold Cid10Chapter.romanPrefix.
  destruct (takeWhile Cid10Chapter.isRoman s) as [|c n];
    destruct (dropWhile Cid10Chapter.isRoman s) as [|d rest]; try reflexivity.
  destruct d as [[] [] [] [] [] [] [] []]; reflexivity.
Qed.

Lemma decimals_eq s :
  Cid10Subcategory.decimals s =
  match s with
  | d :: s2 =>
      if Ascii.eqb d "."%char then
        match takeWhile isDigit s2 with
        | _ :: _ => dropWhile isDigit s2
        | [] => s
        end
      else s
  | [] => s
  end.
Proof.
  destruct s as [|d s2]; [reflexivity |].
  destruct d as [[] [] [] [] [] [] [] []]; reflexivity.
Qed.

Lemma chapterPrefix_eq s :
  Cid10Chapter.chapterPrefix s =
  if startsWith Cid10Chapter.capitulo s then
    let s1 := skipn (length Cid10Chapter.capitulo) s in
    match takeWhile Cid10Chapter.isSpace s1,
          takeWhile Cid10Chapter.isRoman (dropWhile Cid10Chapter.isSpace s1) with
    | _ :: _, _ :: _ =>
        match dropWhile Cid10Chapter.isSpace
                (dropWhile Cid10Chapter.isRoman
                   (dropWhile Cid10Chapter.isSpace s1)) with
        | d :: rest =>
            if Ascii.eqb d "-"%char
            then Some (dropWhile Cid10Chapter.isSpace rest)
            else None
        | [] => None
        end
    | _, _ => None
    end
  else None.
Proof.
  unfold Cid10Chapter.chapterPrefix.
  destruct (startsWith Cid10Chapter.capitulo s); [| reflexivity]. cbv zeta.
  destruct (takeWhile Cid10Chapter.isSpace _) as [|w ws]; [reflexivity |].
  destruct (takeWhile Cid10Chapter.isRoman _) as [|c n]; [reflexivity |].
  destruct (dropWhile Cid10Chapter.isSpace _) as [|d rest]; [reflexivity |].
  destruct d as [[] [] [] [] [] [] [] []]; reflexivity.
Qed.

(** *** Columns *)

(** X6: the constructor loses nothing: joining the columns with [;] gives
    the row back, no column holds a [;], and there is one column more than
    there are [;] in the row (so never none). *)
Theorem columns_roundtrip (row : str) :
  join semicolon (columns (newCidRecord row)) = row /\
  forallb (fun c => negb (includes c semicolon)) (columns (newCidRecord row)) =
    true /\
  length (columns (newCidRecord row)) = S (semicolons row).
Proof.
  unfold newCidRecord, semicolon, semicolons. cbn [columns].
  split; [apply join_split |]. split; [apply split_clean |].
  apply split_char_length.
Qed.

(** X7: the list of excluded codes, in both classes that have one: empty
    when the column is missing or empty; otherwise its elements joined with
    [,] give the column back, none holds a [,], and there is one more of
    them than there are [,]. *)
Theorem excluded_roundtrip (r : CidRecord) :
  match nth_error (columns r) Cid10Category.EXCLUDED with
  | Some (c :: v) =>
      join comma (Cid10Category.excluded r) = c :: v /\
      forallb (fun x => negb (includes x comma)) (Cid10Category.excluded r) =
        true /\
      length (Cid10Category.excluded r) =
        S (count_occ ascii_dec (c :: v) ","%char)
  | _ => Cid10Category.excluded r = []
  end /\
  match nth_error (columns r) Cid10Subcategory.EXCLUDED with
  | Some (c :: v) =>
      join comma (Cid10Subcategory.excluded r) = c :: v /\
      forallb (fun x => negb (includes x comma)) (Cid10Subcategory.excluded r) =
        true /\
      length (Cid10Subcategory.excluded r) =
        S (count_occ ascii_dec (c :: v) ","%char)
  | _ => Cid10Subcategory.excluded r = []
  end.
Proof.
  unfold Cid10Category.excluded, Cid10Subcategory.excluded, comma. split.
  - destruct (nth_error (columns r) Cid10Category.EXCLUDED) as [[|c v]|];
      cbn [orUndefined]; try reflexivity.
    split; [apply join_split |]. split; [apply split_clean |].
    apply split_char_length.
  - destruct (nth_error (columns r) Cid10Subcategory.EXCLUDED) as [[|c v]|];
      cbn [orUndefined]; try reflexivity.
    split; [apply join_split |]. split; [apply split_clean |].
    apply split_char_length.
Qed.

(** *** The prefixes the getters remove *)

Lemma romanPrefix_run numeral blanks name :
  numeral <> [] ->
  forallb Cid10Chapter.isRoman numeral = true ->
  forallb Cid10Chapter.isSpace blanks = true ->
  stopsAt Cid10Chapter.isSpace name = true ->
  Cid10Chapter.romanPrefix (numeral ++ "."%char :: blanks ++ name) =
  Some (numeral, name).
Proof.
  intros Hne Hn Hb Hname. rewrite romanPrefix_eq.
  rewrite (takeWhile_run _ numeral ("."%char :: blanks ++ name) Hn eq_refl).
  rewrite (dropWhile_run _ numeral ("."%char :: blanks ++ name) Hn eq_refl).
  destruct numeral as [|c n]; [congruence |]. cbn [Ascii.eqb].
  rewrite (dropWhile_run _ blanks name Hb Hname). reflexivity.
Qed.

(** X8: a chapter abbreviation made of a roman numeral, a dot, blanks and a
    name that does not begin with a blank: [roman] is the numeral and
    [abbreviation] is the name. *)
Theorem chapter_numeral_prefix (r : CidRecord) (numeral blanks name : str) :
  nth_error (columns r) Cid10Chapter.ABBREVIATION =
    Some (numeral ++ "."%char :: blanks ++ name) ->
  numeral <> [] ->
  forallb Cid10Chapter.isRoman numeral = true ->
  forallb Cid10Chapter.isSpace blanks = true ->
  stopsAt Cid10Chapter.isSpace name = true ->
  Cid10Chapter.roman r = value (Some numeral) /\
  Cid10Chapter.abbreviation r = value name.
Proof.
  intros Hcol Hne Hn Hb Hname.
  unfold Cid10Chapter.roman, Cid10Chapter.abbreviation.
  rewrite Hcol, (romanPrefix_run numeral blanks name Hne Hn Hb Hname).
  split; reflexivity.
Qed.

(** X9: whatever the abbreviation column of a chapter holds, either no
    numeral is found and the abbreviation is the column unchanged, or the
    column is the numeral found (never empty, numeral characters only), a
    dot, blanks and the abbreviation, which does not begin with a blank. *)
Theorem chapter_numeral_decomposition (r : CidRecord) :
  match nth_error (columns r) Cid10Chapter.ABBREVIATION with
  | None => Cid10Chapter.roman r = TypeError
  | Some col =>
      (Cid10Chapter.roman r = value None /\
       Cid10Chapter.abbreviation r = value col) \/
      (exists numeral blanks name,
          Cid10Chapter.roman r = value (Some numeral) /\
          Cid10Chapter.abbreviation r = value name /\
          col = numeral ++ "."%char :: blanks ++ name /\
          numeral <> [] /\
          forallb Cid10Chapter.isRoman numeral = true /\
          forallb Cid10Chapter.isSpace blanks = true /\
          stopsAt Cid10Chapter.isSpace name = true)
  end.
Proof.
  unfold Cid10Chapter.roman, Cid10Chapter.abbreviation.
  destruct (nth_error (columns r) Cid10Chapter.ABBREVIATION) as [col|];
    [| reflexivity].
  rewrite romanPrefix_eq.
  pose proof (takeWhile_dropWhile Cid10Chapter.isRoman col) as Hsplit.
  pose proof (takeWhile_all Cid10Chapter.isRoman col) as Hall.
  destruct (takeWhile Cid10Chapter.isRoman col) as [|c n]; [left; auto |].
  destruct (dropWhile Cid10Chapter.isRoman col) as [|d rest]; [left; auto |].
  destruct (Ascii.eqb_spec d "."%char) as [-> | Hd]; [| left; auto].
  right. exists (c :: n), (takeWhile Cid10Chapter.isSpace rest),
    (dropWhile Cid10Chapter.isSpace rest).
  cbn [option_map fst]. repeat split; auto.
  - rewrite takeWhile_dropWhile. symmetry. exact Hsplit.
  - discriminate.
  - apply takeWhile_all.
  - apply dropWhile_stops.
Qed.

Lemma chapterPrefix_run blanks1 numeral blanks2 blanks3 name :
  blanks1 <> [] -> forallb Cid10Chapter.isSpace blanks1 = true ->
  numeral <> [] -> forallb Cid10Chapter.isRoman numeral = true ->
  forallb Cid10Chapter.isSpace blanks2 = true ->
  forallb Cid10Chapter.isSpace blanks3 = true ->
  stopsAt Cid10Chapter.isSpace name = true ->
  Cid10Chapter.chapterPrefix
    (Cid10Chapter.capitulo ++ blanks1 ++ numeral ++ blanks2 ++
     "-"%char :: blanks3 ++ name) = Some name.
Proof.
  intros Hb1 Hs1 Hn Hr Hs2 Hs3 Hname. rewrite chapterPrefix_eq.
  rewrite startsWith_app, skipn_exact. cbv zeta.
  assert (Hstop2 : stopsAt Cid10Chapter.isRoman
                     (blanks2 ++ "-"%char :: blanks3 ++ name) = true)
    by (apply (stopsAt_app _ _ _ _ space_not_roman Hs2); reflexivity).
  assert (Hstop1 : stopsAt Cid10Chapter.isSpace
                     (numeral ++ blanks2 ++ "-"%char :: blanks3 ++ name) = true).
  { apply (stopsAt_run _ _ _ _ roman_not_space Hn Hr). }
  rewrite (takeWhile_run _ blanks1 _ Hs1 Hstop1).
  rewrite (dropWhile_run _ blanks1 _ Hs1 Hstop1).
  rewrite (takeWhile_run _ numeral _ Hr Hstop2).
  rewrite (dropWhile_run _ numeral _ Hr Hstop2).
  rewrite (dropWhile_run _ blanks2 ("-"%char :: blanks3 ++ name) Hs2 eq_refl).
  destruct blanks1 as [|w ws]; [congruence |].
  destruct numeral as [|c n]; [congruence |].
  cbn [Ascii.eqb]. rewrite (dropWhile_run _ blanks3 name Hs3 Hname).
  reflexivity.
Qed.

(** X10: a chapter description made of [Capítulo], blanks, a roman numeral,
    optional blanks, a dash, optional blanks and a name that does not begin
    with a blank: [description] is the name. *)
Theorem chapter_description_prefix (r : CidRecord)
    (blanks1 numeral blanks2 blanks3 name : str) :
  nth_error (columns r) Cid10Chapter.DESCRIPTION =
    Some (Cid10Chapter.capitulo ++ blanks1 ++ numeral ++ blanks2 ++
          "-"%char :: blanks3 ++ name) ->
  blanks1 <> [] -> forallb Cid10Chapter.isSpace blanks1 = true ->
  numeral <> [] -> forallb Cid10Chapter.isRoman numeral = true ->
  forallb Cid10Chapter.isSpace blanks2 = true ->
  forallb Cid10Chapter.isSpace blanks3 = true ->
  stopsAt Cid10Chapter.isSpace name = true ->
  Cid10Chapter.description r = value name.
Proof.
  intros Hcol Hb1 Hs1 Hn Hr Hs2 Hs3 Hname. unfold Cid10Chapter.description.
  rewrite Hcol, (chapterPrefix_run _ _ _ _ _ Hb1 Hs1 Hn Hr Hs2 Hs3 Hname).
  reflexivity.
Qed.

Lemma category_codePrefix_run c digits blanks name :
  isUpper c = true ->
  digits <> [] -> forallb isDigit digits = true ->
  blanks <> [] -> forallb Cid10Chapter.isSpace blanks = true ->
  stopsAt Cid10Chapter.isSpace name = true ->
  Cid10Category.codePrefix (c :: digits ++ blanks ++ name) = Some name.
Proof.
  intros Hc Hd Hds Hb Hbs Hname. unfold Cid10Category.codePrefix. rewrite Hc.
  assert (Hstop : stopsAt isDigit (blanks ++ name) = true).
  { apply (stopsAt_run _ _ _ _ space_not_digit Hb Hbs). }
  rewrite (takeWhile_run _ digits _ Hds Hstop).
  rewrite (dropWhile_run _ digits _ Hds Hstop).
  rewrite (takeWhile_run _ blanks _ Hbs Hname).
  rewrite (dropWhile_run _ blanks _ Hbs Hname).
  destruct digits; [congruence |]. destruct blanks; [congruence |].
  reflexivity.
Qed.

(** X11: a category abbreviation made of a capital letter, digits, blanks
    and a name that does not begin with a blank: [abbreviation] is the
    name. *)
Theorem category_code_prefix (r : CidRecord) (c : ascii)
    (digits blanks name : str) :
  nth_error (columns r) Cid10Category.ABBREVIATION =
    Some (c :: digits ++ blanks ++ name) ->
  isUpper c = true ->
  digits <> [] -> forallb isDigit digits = true ->
  blanks <> [] -> forallb Cid10Chapter.isSpace blanks = true ->
  stopsAt Cid10Chapter.isSpace name = true ->
  Cid10Category.abbreviation r = value name.
Proof.
  intros Hcol Hc Hd Hds Hb Hbs Hname. unfold Cid10Category.abbreviation.
  rewrite Hcol, (category_codePrefix_run c _ _ _ Hc Hd Hds Hb Hbs Hname).
  reflexivity.
Qed.

Lemma decimals_blank w rest :
  Cid10Chapter.isSpace w = true ->
  Cid10Subcategory.decimals (w :: rest) = w :: rest.
Proof.
  intros Hw. rewrite decimals_eq.
  destruct (Ascii.eqb_spec w "."%char) as [-> | _]; [discriminate | reflexivity].
Qed.

Lemma subcategory_codePrefix_tail c digits tail blanks name :
  isUpper c = true ->
  digits <> [] -> forallb isDigit digits = true ->
  stopsAt isDigit tail = true ->
  Cid10Subcategory.decimals tail = blanks ++ name ->
  blanks <> [] -> forallb Cid10Chapter.isSpace blanks = true ->
  stopsAt Cid10Chapter.isSpace name = true ->
  Cid10Subcategory.codePrefix (c :: digits ++ tail) = Some name.
Proof.
  intros Hc Hd Hds Hstop Htail Hb Hbs Hname.
  unfold Cid10Subcategory.codePrefix. rewrite Hc.
  rewrite (takeWhile_run _ digits _ Hds Hstop).
  rewrite (dropWhile_run _ digits _ Hds Hstop), Htail.
  rewrite (takeWhile_run _ blanks _ Hbs Hname).
  rewrite (dropWhile_run _ blanks _ Hbs Hname).
  destruct digits; [congruence |]. destruct blanks; [congruence |].
  reflexivity.
Qed.

(** X12: a subcategory abbreviation made of a capital letter, digits, an
    optional dot with digits, blanks and a name that does not begin with a
    blank: [abbreviation] is the name.  When the dot is followed by no digit
    nothing is removed. *)
Theorem subcategory_code_prefix (r : CidRecord) (c : ascii)
    (digits decs blanks name rest : str) :
  isUpper c = true ->
  digits <> [] -> forallb isDigit digits = true ->
  forallb isDigit decs = true ->
  blanks <> [] -> forallb Cid10Chapter.isSpace blanks = true ->
  stopsAt Cid10Chapter.isSpace name = true ->
  stopsAt isDigit rest = true ->
  (nth_error (columns r) Cid10Subcategory.ABBREVIATION =
     Some (c :: digits ++ blanks ++ name) ->
   Cid10Subcategory.abbreviation r = value name) /\
  (decs <> [] ->
   nth_error (columns r) Cid10Subcategory.ABBREVIATION =
     Some (c :: digits ++ "."%char :: decs ++ blanks ++ name) ->
   Cid10Subcategory.abbreviation r = value name) /\
  (nth_error (columns r) Cid10Subcategory.ABBREVIATION =
     Some (c :: digits ++ "."%char :: rest) ->
   Cid10Subcategory.abbreviation r =
     value (c :: digits ++ "."%char :: rest)).
Proof.
  intros Hc Hd Hds Hdecs Hb Hbs Hname Hrest.
  assert (Hstop : stopsAt isDigit (blanks ++ name) = true).
  { apply (stopsAt_run _ _ _ _ space_not_digit Hb Hbs). }
  unfold Cid10Subcategory.abbreviation. split; [| split].
  - intros ->.
    rewrite (subcategory_codePrefix_tail c digits (blanks ++ name) blanks name);
      auto.
    destruct blanks as [|w ws]; [congruence |].
    apply decimals_blank. apply (forallb_head _ _ _ Hbs).
  - intros Hne ->.
    rewrite (subcategory_codePrefix_tail c digits
               ("."%char :: decs ++ blanks ++ name) blanks name); auto.
    rewrite decimals_eq. cbn [Ascii.eqb].
    rewrite (takeWhile_run _ decs _ Hdecs Hstop).
    rewrite (dropWhile_run _ decs _ Hdecs Hstop).
    destruct decs; [congruence | reflexivity].
  - intros ->. unfold Cid10Subcategory.codePrefix. rewrite Hc.
    rewrite (takeWhile_run _ digits ("."%char :: rest) Hds eq_refl).
    rewrite (dropWhile_run _ digits ("."%char :: rest) Hds eq_refl).
    rewrite decimals_eq. cbn [Ascii.eqb].
    assert (Hnone : takeWhile isDigit rest = []).
    { destruct rest as [|x xs]; [reflexivity |]. cbn [stopsAt] in Hrest.
      apply negb_true_iff in Hrest. cbn [takeWhile]. rewrite Hrest.
      reflexivity. }
    rewrite Hnone. destruct digits; [congruence |]. reflexivity.
Qed.

Lemma decimals_suffix s : suffixOf (Cid10Subcategory.decimals s) s.
Proof.
  rewrite decimals_eq. destruct s as [|d s2]; [apply suffixOf_refl |].
  destruct (Ascii.eqb d "."%char); [| apply suffixOf_refl].
  destruct (takeWhile isDigit s2); [apply suffixOf_refl |].
  apply suffixOf_cons, dropWhile_suffix.
Qed.

Lemma romanPrefix_suffix s :
  suffixOf match Cid10Chapter.romanPrefix s with
           | Some (_, rest) => rest
           | None => s
           end s.
Proof.
  rewrite romanPrefix_eq.
  pose proof (dropWhile_suffix Cid10Chapter.isRoman s) as Hs.
  destruct (takeWhile Cid10Chapter.isRoman s); [apply suffixOf_refl |].
  destruct (dropWhile Cid10Chapter.isRoman s) as [|d rest];
    [apply suffixOf_refl |].
  destruct (Ascii.eqb d "."%char); [| apply suffixOf_refl].
  eapply suffixOf_trans; [| exact Hs].
  apply suffixOf_cons, dropWhile_suffix.
Qed.

Lemma chapterPrefix_suffix s :
  suffixOf match Cid10Chapter.chapterPrefix s with
           | Some rest => rest
           | None => s
           end s.
Proof.
  rewrite chapterPrefix_eq.
  destruct (startsWith Cid10Chapter.capitulo s); [| apply suffixOf_refl].
  cbv zeta. set (s1 := skipn (length Cid10Chapter.capitulo) s).
  assert (H1 : suffixOf s1 s) by apply suffixOf_skipn.
  destruct (takeWhile Cid10Chapter.isSpace s1); [apply suffixOf_refl |].
  destruct (takeWhile Cid10Chapter.isRoman _); [apply suffixOf_refl |].
  pose proof (dropWhile_suffix Cid10Chapter.isSpace
                (dropWhile Cid10Chapter.isRoman
                   (dropWhile Cid10Chapter.isSpace s1))) as H4.
  destruct (dropWhile Cid10Chapter.isSpace
              (dropWhile Cid10Chapter.isRoman
                 (dropWhile Cid10Chapter.isSpace s1))) as [|d rest];
    [apply suffixOf_refl |].
  destruct (Ascii.eqb d "-"%char); [| apply suffixOf_refl].
  eapply suffixOf_trans; [| exact H1].
  eapply suffixOf_trans; [| apply (dropWhile_suffix Cid10Chapter.isSpace)].
  eapply suffixOf_trans; [| apply (dropWhile_suffix Cid10Chapter.isRoman)].
  eapply suffixOf_trans; [| exact H4].
  apply suffixOf_cons, dropWhile_suffix.
Qed.

Lemma category_codePrefix_suffix s :
  suffixOf match Cid10Category.codePrefix s with
           | Some rest => rest
           | None => s
           end s.
Proof.
  unfold Cid10Category.codePrefix. destruct s as [|c s1]; [apply suffixOf_refl |].
  destruct (isUpper c); [| apply suffixOf_refl].
  destruct (takeWhile isDigit s1); [apply suffixOf_refl |].
  destruct (takeWhile Cid10Chapter.isSpace _); [apply suffixOf_refl |].
  apply suffixOf_cons.
  eapply suffixOf_trans; [apply dropWhile_suffix | apply dropWhile_suffix].
Qed.

Lemma subcategory_codePrefix_suffix s :
  suffixOf match Cid10Subcategory.codePrefix s with
           | Some rest => rest
           | None => s
           end s.
Proof.
  unfold Cid10Subcategory.codePrefix.
  destruct s as [|c s1]; [apply suffixOf_refl |].
  destruct (isUpper c); [| apply suffixOf_refl].
  destruct (takeWhile isDigit s1); [apply suffixOf_refl |].
  destruct (takeWhile Cid10Chapter.isSpace _); [apply suffixOf_refl |].
  apply suffixOf_cons.
  eapply suffixOf_trans; [apply dropWhile_suffix |].
  eapply suffixOf_trans; [apply decimals_suffix | apply dropWhile_suffix].
Qed.

(** X13: the four getters that clean a column never invent text: what they
    return is the column with a prefix (possibly empty) removed. *)
Theorem getters_only_remove_a_prefix (r : CidRecord) (col : str) :
  (nth_error (columns r) Cid10Chapter.ABBREVIATION = Some col ->
   exists v, Cid10Chapter.abbreviation r = value v /\ suffixOf v col) /\
  (nth_error (columns r) Cid10Chapter.DESCRIPTION = Some col ->
   exists v, Cid10Chapter.description r = value v /\ suffixOf v col) /\
  (nth_error (columns r) Cid10Category.ABBREVIATION = Some col ->
   exists v, Cid10Category.abbreviation r = value v /\ suffixOf v col) /\
  (nth_error (columns r) Cid10Subcategory.ABBREVIATION = Some col ->
   exists v, Cid10Subcategory.abbreviation r = value v /\ suffixOf v col).
Proof.
  unfold Cid10Chapter.abbreviation, Cid10Chapter.description,
    Cid10Category.abbreviation, Cid10Subcategory.abbreviation.
  repeat split; intros ->; eexists; (split; [reflexivity |]).
  - pose proof (romanPrefix_suffix col) as H.
    destruct (Cid10Chapter.romanPrefix col) as [[n rest]|]; exact H.
  - apply chapterPrefix_suffix.
  - apply category_codePrefix_suffix.
  - apply subcategory_codePrefix_suffix.
Qed.

(** *** Rows that are too short *)

Lemma column_missing row i :
  nth_error (columns (newCidRecord row)) i = None <-> semicolons row < i.
Proof.
  rewrite nth_error_None. unfold newCidRecord, semicolon, semicolons.
  cbn [columns]. rewrite split_char_length. lia.
Qed.

Lemma getter_throws {A : Type} (f : str -> A) row i :
  match nth_error (columns (newCidRecord row)) i with
  | None => TypeError
  | Some v => value (f v)
  end = TypeError <-> semicolons row < i.
Proof.
  rewrite <- column_missing.
  destruct (nth_error (columns (newCidRecord row)) i);
    split; intros; congruence.
Qed.

(** X14: the getters that call a method on a column throw exactly on the
    rows that are too short for that column, counted in [;]: fewer than four
    for the abbreviation and the numeral of a chapter, fewer than three for
    its description and for the abbreviation of a category, fewer than five
    for the abbreviation of a subcategory. *)
Theorem getters_throw_iff_short (row : str) :
  (Cid10Chapter.abbreviation (Cid10Chapter.new row) = TypeError <->
   semicolons row < 4) /\
  (Cid10Chapter.roman (Cid10Chapter.new row) = TypeError <->
   semicolons row < 4) /\
  (Cid10Chapter.description (Cid10Chapter.new row) = TypeError <->
   semicolons row < 3) /\
  (Cid10Category.abbreviation (Cid10Category.new row) = TypeError <->
   semicolons row < 3) /\
  (Cid10Subcategory.abbreviation (Cid10Subcategory.new row) = TypeError <->
   semicolons row < 5).
Proof.
  repeat split; try apply getter_throws; try apply (getter_throws _ row).
Qed.

(** *** The readers and the getters together *)

Lemma forallb_firstn {A : Type} (p : A -> bool) n l :
  forallb p l = true -> forallb p (firstn n l) = true.
Proof.
  revert l. induction n as [|n IH]; intros [|x l] H; try reflexivity.
  cbn [firstn forallb] in *. apply andb_prop in H as [Hx Hl].
  rewrite Hx, (IH l Hl). reflexivity.
Qed.

Lemma forallb_map_impl {A B : Type} (p : A -> bool) (q : B -> bool)
    (f : A -> B) l :
  (forall x, p x = true -> q (f x) = true) ->
  forallb p l = true -> forallb q (map f l) = true.
Proof.
  intros Hpq. induction l as [|x l IH]; [reflexivity |].
  cbn [map forallb]. intros H. apply andb_prop in H as [Hx Hl].
  rewrite (Hpq x Hx), (IH Hl). reflexivity.
Qed.

Lemma getter_value {A : Type} (f : str -> A) row i :
  i <= semicolons row ->
  isValue match nth_error (columns (newCidRecord row)) i with
          | None => TypeError
          | Some v => value (f v)
          end = true.
Proof.
  intros Hi. destruct (nth_error (columns (newCidRecord row)) i) eqn:Hn;
    [reflexivity |].
  apply column_missing in Hn. lia.
Qed.

(** Under every schedule the records yielded are those of the first lines
    after the header, so a property of all those lines holds of every
    record. *)
Lemma yielded_all (E : Type) (sched : list (action E))
    (p : str -> bool) (q : CidRecord -> bool) :
  (forall row, p row = true -> q (newCidRecord row) = true) ->
  forallb p (tl (completeLines (concat (dataOf sched)))) = true ->
  forallb q (fst (cidTableStream newCidRecord sched)) = true.
Proof.
  intros Hpq Hlines.
  destruct (yielded_prefix E CidRecord newCidRecord sched) as (n & ->).
  apply (forallb_map_impl p q); [exact Hpq |].
  apply forallb_firstn. exact Hlines.
Qed.

(** X15: when every complete line after the header has at least four [;]
    (five columns), no record yielded by [cid10ChaptersStream], under any
    schedule, throws on [roman], [abbreviation] or [description]; likewise
    with three [;] for the abbreviation of the records of
    [cid10CategoriesStream] and five for those of
    [cid10SubcategoriesStream]. *)
Theorem streamed_records_answer (E : Type) (sched : list (action E)) :
  (forallb (fun l => 4 <=? semicolons l)
     (tl (completeLines (concat (dataOf sched)))) = true ->
   forallb (fun r => isValue (Cid10Chapter.roman r) &&
                     isValue (Cid10Chapter.abbreviation r) &&
                     isValue (Cid10Chapter.description r))
     (fst (cid10ChaptersStream sched)) = true) /\
  (forallb (fun l => 3 <=? semicolons l)
     (tl (completeLines (concat (dataOf sched)))) = true ->
   forallb (fun r => isValue (Cid10Category.abbreviation r))
     (fst (cid10CategoriesStream sched)) = true) /\
  (forallb (fun l => 5 <=? semicolons l)
     (tl (completeLines (concat (dataOf sched)))) = true ->
   forallb (fun r => isValue (Cid10Subcategory.abbreviation r))
     (fst (cid10SubcategoriesStream sched)) = true).
Proof.
  unfold cid10ChaptersStream, cid10CategoriesStream, cid10SubcategoriesStream.
  split; [| split]; apply yielded_all; intros row Hrow;
    apply Nat.leb_le in Hrow.
  - unfold Cid10Chapter.roman, Cid10Chapter.abbreviation,
      Cid10Chapter.description.
    rewrite !getter_value by (unfold Cid10Chapter.ABBREVIATION,
                                Cid10Chapter.DESCRIPTION; lia).
    reflexivity.
  - apply getter_value. unfold Cid10Category.ABBREVIATION. lia.
  - apply getter_value. unfold Cid10Subcategory.ABBREVIATION. lia.
Qed.

(** ** The further properties at concrete inputs *)

Example documented_chapter :
  Cid10Chapter.roman (Cid10Chapter.new Tables.chapterRow) =
    value (Some (lit "I")) /\
  Cid10Chapter.catFirst (Cid10Chapter.new Tables.chapterRow) =
    Some (lit "A00") /\
  Cid10Chapter.catLast (Cid10Chapter.new Tables.chapterRow) =
    Some (lit "B99") /\
  Cid10Chapter.description (Cid10Chapter.new Tables.chapterRow) =
    value (lit "Nome") /\
  Cid10Chapter.abbreviation (Cid10Chapter.new Tables.chapterRow) =
    value (lit "Abrev").
Proof. repeat split. Qed.

Example documented_category :
  Cid10Category.code (Cid10Category.new Tables.categoryRow) =
    Some (lit "Z00") /\
  Cid10Category.classif (Cid10Category.new Tables.categoryRow) =
    Some (lit "+") /\
  Cid10Category.abbreviation (Cid10Category.new Tables.categoryRow) =
    value (lit "Abrev") /\
  Cid10Category.refer (Cid10Category.new Tables.categoryRow) =
    Some (lit "A00.0*") /\
  Cid10Category.excluded (Cid10Category.new Tables.categoryRow) =
    [lit "B00.0+"; lit "C00.0"; lit "D00.-"].
Proof. repeat split. Qed.

Example documented_subcategory :
  Cid10Subcategory.restrBySex (Cid10Subcategory.new Tables.subcategoryRow) =
    Some (lit "M") /\
  Cid10Subcategory.canCauseDeath (Cid10Subcategory.new Tables.subcategoryRow) =
    Some (lit "N") /\
  Cid10Subcategory.abbreviation (Cid10Subcategory.new Tables.subcategoryRow) =
    value (lit "Abrev") /\
  Cid10Subcategory.excluded (Cid10Subcategory.new Tables.subcategoryRow) =
    [lit "B00.0+"; lit "C00.0"; lit "D00.-"].
Proof. repeat split. Qed.

(** Empty optional columns read as [undefined] and give no excluded code. *)
Example empty_optional_columns :
  Cid10Category.classif (Cid10Category.new (lit "Z00;;Nome;Z00 Abrev;;")) =
    None /\
  Cid10Category.refer (Cid10Category.new (lit "Z00;;Nome;Z00 Abrev;;")) =
    None /\
  Cid10Category.excluded (Cid10Category.new (lit "Z00;;Nome;Z00 Abrev;;")) =
    [].
Proof. repeat split. Qed.

Example chapters_table_read :
  cid10ChaptersStream (E := unit) (toEnd (paced 3 [Tables.chapters]) 3) =
  ([Cid10Chapter.new Tables.chapterRow], finished returned).
Proof. reflexivity. Qed.

Lemma returns_only_after_end_witness :
  streamEnd unit (vars (fst (run newCidRecord (toEnd [turn] 1)))) = true.
Proof.
  exact (returns_only_after_end unit CidRecord newCidRecord
           (toEnd [turn] 1) eq_refl).
Defined.

Lemma failure_with_empty_queue_witness :
  cidTableStream newCidRecord
    (toFailure (paced 4 [Scenario.firstChunk; Scenario.secondChunk]) tt 2) =
  ([Scenario.r1; Scenario.r2], finished (thrown (streamFailure tt))).
Proof.
  exact (proj2 (failure_with_empty_queue unit CidRecord newCidRecord
                  (paced 4 [Scenario.firstChunk; Scenario.secondChunk]) tt
                  eq_refl eq_refl) 2 eq_refl).
Defined.

Lemma chapter_numeral_prefix_witness :
  Cid10Chapter.roman (Cid10Chapter.new Tables.chapterRow) =
    value (Some (lit "I")) /\
  Cid10Chapter.abbreviation (Cid10Chapter.new Tables.chapterRow) =
    value (lit "Abrev").
Proof.
  apply (chapter_numeral_prefix (Cid10Chapter.new Tables.chapterRow)
           (lit "I") (lit "   ") (lit "Abrev"));
    [reflexivity | discriminate | reflexivity | reflexivity | reflexivity].
Defined.

Lemma chapter_description_prefix_witness :
  Cid10Chapter.description (Cid10Chapter.new Tables.chapterRow) =
    value (lit "Nome").
Proof.
  apply (chapter_description_prefix (Cid10Chapter.new Tables.chapterRow)
           (lit " ") (lit "I") (lit " ") (lit " ") (lit "Nome"));
    try reflexivity; discriminate.
Defined.

Lemma category_code_prefix_witness :
  Cid10Category.abbreviation (Cid10Category.new Tables.categoryRow) =
    value (lit "Abrev").
Proof.
  apply (category_code_prefix (Cid10Category.new Tables.categoryRow)
           "Z"%char (lit "00") (lit "   ") (lit "Abrev"));
    try reflexivity; discriminate.
Defined.

Lemma subcategory_code_prefix_witness :
  Cid10Subcategory.abbreviation (Cid10Subcategory.new Tables.subcategoryRow) =
    value (lit "Abrev").
Proof.
  refine (proj1 (proj2 (subcategory_code_prefix
                          (Cid10Subcategory.new Tables.subcategoryRow)
                          "B"%char (lit "00") (lit "0") (lit " ")
                          (lit "Abrev") (lit "")
                          eq_refl _ eq_refl eq_refl _ eq_refl eq_refl eq_refl))
            _ eq_refl); discriminate.
Defined.

Lemma getters_only_remove_a_prefix_witness :
  exists v,
    Cid10Chapter.abbreviation (Cid10Chapter.new Tables.chapterRow) = value v /\
    suffixOf v (lit "I.   Abrev").
Proof.
  exact (proj1 (getters_only_remove_a_prefix
                  (Cid10Chapter.new Tables.chapterRow) (lit "I.   Abrev"))
           eq_refl).
Defined.

Lemma streamed_records_answer_witness :
  forallb (fun r => isValue (Cid10Chapter.roman r) &&
                    isValue (Cid10Chapter.abbreviation r) &&
                    isValue (Cid10Chapter.description r))
    (fst (cid10ChaptersStream (E := unit)
            (toEnd (paced 3 [Tables.chapters]) 3))) = true.
Proof.
  exact (proj1 (streamed_records_answer unit
                  (toEnd (paced 3 [Tables.chapters]) 3)) eq_refl).
Defined.
